(** * node-papi [lib/tools.js]: capability trees and dual-mode patching

    A shallow embedding of the three functions of [lib/tools.js]

    - [walk]          builds the capability tree of a behavior definition,
    - [fromCallback]  turns a callback-taking function into a promise,
    - [promisify]     patches every callback-mode operation of a live
                      instance with a dual-mode wrapper,

    followed by the properties of the specification that concern them.

    Definitions and trees are values of inductive types; the live
    instances, the arrays and the promises that [promisify] and its
    wrappers act on live in a store.  The functions of the host program
    are a parameter of the semantics.  A second transcription of [walk],
    on a store of objects, states what it writes. *)

From Stdlib Require Import String Ascii List ZArith Bool Lia.
From stdpp Require Import base option list strings gmap.
Import ListNotations.
Local Open Scope string_scope.
Local Open Scope list_scope.
#[local] Set Warnings "-register-all,-clear-no-such-hyp".

(** ** JavaScript values

    Objects with identity live in a heap and are denoted by [VRef].
    The function values are the closures that [tools.js] itself creates,
    plus the functions of the surrounding program ([FExtern]), whose
    code is a parameter of the semantics. *)

Inductive errkind := KError | KTypeError.

Inductive value :=
| VUndef
| VNull
| VBool (b : bool)
| VNum (z : Z)
| VStr (s : string)
| VRef (l : nat)                       (* a live object of the heap *)
| VPromise (p : nat)                   (* a promise of the promise store *)
| VError (k : errkind) (msg : string)  (* [new Error(msg)], [TypeError] *)
| VFun (f : func)
with func :=
| FExtern (id : nat)
    (* a function of the host program *)
| FWrapper (client fn wrapCallback : value)
    (* the [function() { ... }] assigned to [client[method.name]] *)
| FAppend (client fn : value) (args : nat)
    (* the [function(callback) { args.push(callback); ... }] handed to
       [wrapCallback]; [args] is the array it shares with its wrapper *)
| FFromCallback
    (* [fromCallback] itself *)
| FSettle (p : nat).
    (* the [function(err, data) { ... }] made by [fromCallback] for the
       promise [p] *)

(** What the runtime throws by itself is a [TypeError]; its message is
    engine specific and left empty. *)
Definition type_error : value := VError KTypeError EmptyString.

(** [new Error('invalid arguments')] of [walk]. *)
Definition invalid_arguments : value := VError KError "invalid arguments".

(** [new Error('client required')] of [promisify]. *)
Definition client_required : value := VError KError "client required".

(** ToBoolean. *)
Definition truthy (v : value) : bool :=
  match v with
  | VUndef | VNull => false
  | VBool b => b
  | VNum z => negb (z =? 0)%Z
  | VStr s => negb (String.eqb s EmptyString)
  | _ => true
  end.

(** [typeof v === 'function'] *)
Definition is_function (v : value) : bool :=
  match v with VFun _ => true | _ => false end.

(** [v === 'callback'] *)
Definition is_callback (v : value) : bool :=
  match v with VStr s => String.eqb s "callback" | _ => false end.

(** Completion of a call: it returns or it throws. *)
Inductive outcome :=
| Return (v : value)
| Throw (e : value).

(** ** Identifiers *)

Definition is_lower (c : ascii) : bool :=
  ((97 <=? nat_of_ascii c) && (nat_of_ascii c <=? 122))%nat.

Definition is_upper (c : ascii) : bool :=
  ((65 <=? nat_of_ascii c) && (nat_of_ascii c <=? 90))%nat.

(** [key.match(/^[a-z]+/)] is non-null. *)
Definition starts_lower (key : string) : bool :=
  match key with
  | String c _ => is_lower c
  | EmptyString => false
  end.

(** [key.match(/^[A-Z]+/)] is non-null. *)
Definition starts_upper (key : string) : bool :=
  match key with
  | String c _ => is_upper c
  | EmptyString => false
  end.

Definition lower_ascii (c : ascii) : ascii :=
  if is_upper c then ascii_of_nat (nat_of_ascii c + 32)%nat else c.

(** [key.toLowerCase()] on ASCII identifiers. *)
Fixpoint toLowerCase (key : string) : string :=
  match key with
  | EmptyString => EmptyString
  | String c rest => String (lower_ascii c) (toLowerCase rest)
  end.

(** ** Objects as ordered property lists

    A JavaScript object is the list of its own enumerable properties in
    enumeration order.  [Object.keys(o)] is [keys o], [o[k]] is
    [assoc k o] and [o[k] = v] is [assoc_set k v o], which overwrites in
    place or appends.  Keys are unique in an object, so that a loop over
    [Object.keys(o)] that reads [o[key]] is a loop over the entries. *)

Section Assoc.
Context {A : Type}.

Definition keys (o : list (string * A)) : list string := map fst o.

Fixpoint assoc (k : string) (o : list (string * A)) : option A :=
  match o with
  | [] => None
  | (k', v) :: rest => if String.eqb k k' then Some v else assoc k rest
  end.

Fixpoint assoc_set (k : string) (v : A) (o : list (string * A))
  : list (string * A) :=
  match o with
  | [] => [(k, v)]
  | (k', v') :: rest =>
      if String.eqb k k' then (k, v) :: rest
      else (k', v') :: assoc_set k v rest
  end.
End Assoc.

(** ** Behavior definitions

    A definition is a constructor function: its [name], the own
    enumerable properties of its [prototype] (the behavior surface), its
    optional [meta] map and its own enumerable properties, among which
    the nested definitions.  [Plain v] is a property value that has no
    [prototype] to enumerate (a constant, [null], ...). *)

Record meta_entry := { me_type : value }.

Inductive definition :=
| Def (name : value)
      (prototype : list (string * value))
      (meta : option (list (string * meta_entry)))
      (statics : list (string * definition))
| Plain (v : value).

(** ** Capability trees *)

Record method := Method {
  m_name : string;
  m_value : value;
  m_type : value;
}.

Inductive tree := Tree {
  t_name : value;
  t_value : option definition;
  t_methods : option (list (string * method));
  t_objects : option (list (string * tree));
}.

(** [{ name: name }] *)
Definition fresh_tree (name : value) : tree :=
  Tree name None None None.

(** [{ name: key, value: v }] *)
Definition fresh_node (key : string) (v : definition) : tree :=
  Tree (VStr key) (Some v) None None.

(** Synchronous result of a builder call. *)
Inductive result (A : Type) :=
| Ok (a : A)
| Raise (e : value).
Arguments Ok {A} a.
Arguments Raise {A} e.

(** ** [walk] *)

(** [meta[key] && meta[key].type || 'callback'] with
    [meta = obj.meta || {}]. *)
Definition method_type (meta : option (list (string * meta_entry)))
    (key : string) : value :=
  match meta with
  | None => VStr "callback"
  | Some m =>
      match assoc key m with
      | Some e => if truthy (me_type e) then me_type e else VStr "callback"
      | None => VStr "callback"
      end
  end.

(** [if (!tree.methods) tree.methods = {}; tree.methods[key] = d] *)
Definition set_method (key : string) (d : method) (t : tree) : tree :=
  Tree (t_name t) (t_value t)
       (Some (assoc_set key d (default [] (t_methods t))))
       (t_objects t).

(** [if (!tree.objects) tree.objects = {}; tree.objects[key] = n] *)
Definition set_object (key : string) (n : tree) (t : tree) : tree :=
  Tree (t_name t) (t_value t) (t_methods t)
       (Some (assoc_set key n (default [] (t_objects t)))).

(** One turn of the first [forEach] (lines 26-40). *)
Definition walk_method (meta : option (list (string * meta_entry)))
    (t : tree) (entry : string * value) : tree :=
  let '(key, v) := entry in
  if starts_lower key
  then set_method key (Method key v (method_type meta key)) t
  else t.

(** The arguments a call of [walk] can carry: [arguments.length] is the
    number of fields. *)
Inductive walk_args :=
| Args0
| Args1 (obj : definition)
| Args2 (obj : definition) (name : value)
| Args3 (obj : definition) (name : value) (tree : tree)
| ArgsMore (obj : definition) (name : value) (tree : tree)
           (fourth : value) (rest : list value).

Definition arity (a : walk_args) : nat :=
  match a with
  | Args0 => 0
  | Args1 _ => 1
  | Args2 _ _ => 2
  | Args3 _ _ _ => 3
  | ArgsMore _ _ _ _ rest => 4 + length rest
  end.

(** The second [forEach] (lines 42-54); [rec] is [walk] called with
    three arguments. *)
Section WalkNested.
Variable rec : definition → value → tree → result tree.

Fixpoint walk_nested (entries : list (string * definition)) (t : tree)
    : result tree :=
  match entries with
  | [] => Ok t
  | (key, v) :: rest =>
      if starts_upper key then
        match rec v (VStr key) (fresh_node key v) with
        | Ok child => walk_nested rest (set_object key child t)
        | Raise e => Raise e
        end
      else walk_nested rest t
  end.
End WalkNested.

(** Lines 26-56: the body of [walk] once [name] and [tree] are fixed. *)
Fixpoint walk_body (obj : definition) (name : value) (t : tree)
    {struct obj} : result tree :=
  match obj with
  | Plain _ => Raise type_error
  | Def _ prototype meta statics =>
      walk_nested walk_body statics
        (fold_left (walk_method meta) prototype t)
  end.

(** [obj.name] *)
Definition def_name (obj : definition) : value :=
  match obj with
  | Def name _ _ _ => name
  | Plain _ => VUndef
  end.

Definition walk (a : walk_args) : result tree :=
  match a with
  | Args1 obj => walk_body obj (def_name obj) (fresh_tree (def_name obj))
  | Args2 obj name => walk_body obj name (fresh_tree name)
  | Args3 obj name t => walk_body obj name t
  | Args0 | ArgsMore _ _ _ _ _ => Raise invalid_arguments
  end.

(** ** The store

    A live object has own properties and a prototype chain: [o_proto]
    lists what the chain makes visible, own properties come first.
    [o_constructor] is the definition that [client.constructor]
    evaluates to.  Arrays and promises are allocated in order; a promise
    is settled once.  The calls of host functions are logged. *)

Record object := Object {
  o_constructor : definition;
  o_own : list (string * value);
  o_proto : list (string * value);
}.

Inductive pstate :=
| Pending
| Resolved (v : value)     (* [resolve(v)] came first *)
| Rejected (e : value).    (* [reject(e)] came first *)

Record state := State {
  heap : gmap nat object;
  arrays : list (list value);
  promises : list pstate;
  log : list (nat * value * list value);   (* calls of host functions *)
}.

(** A function that is used as a definition: the closures made here are
    anonymous and have an empty [prototype]. *)
Definition builtin (name : string) : definition :=
  Def (VStr name) [] None [].

Definition as_definition (x : value) : definition :=
  match x with
  | VFun _ => builtin EmptyString
  | _ => Plain x
  end.

(** A location that was never written denotes [{}]. *)
Definition empty_object : object := Object (builtin "Object") [] [].

Definition heap_get (s : state) (l : nat) : object :=
  default empty_object (heap s !! l).

(** [o[key]] through the prototype chain. *)
Definition object_get (o : object) (key : string) : value :=
  match assoc key (o_own o) with
  | Some v => v
  | None => default VUndef (assoc key (o_proto o))
  end.

(** [o[key] = x] makes or overwrites an own property. *)
Definition object_set (o : object) (key : string) (x : value) : object :=
  Object (if String.eqb key "constructor" then as_definition x
          else o_constructor o)
         (assoc_set key x (o_own o))
         (o_proto o).

(** [v[key]]: reading a property of [undefined] or [null] is a
    [TypeError]; the properties of other values than live objects are
    not modelled and read as [undefined]. *)
Definition get_prop (s : state) (v : value) (key : string) : result value :=
  match v with
  | VUndef | VNull => Raise type_error
  | VRef l => Ok (object_get (heap_get s l) key)
  | _ => Ok VUndef
  end.

(** [v[key] = x] in strict mode: only live objects take the property
    (functions, promises and errors are treated as frozen). *)
Definition set_prop (s : state) (v : value) (key : string) (x : value)
    : result state :=
  match v with
  | VRef l =>
      Ok (State (<[l := object_set (heap_get s l) key x]> (heap s))
                (arrays s) (promises s) (log s))
  | _ => Raise type_error
  end.

(** [Array.prototype.slice.call(arguments)] *)
Definition new_array (xs : list value) (s : state) : nat * state :=
  (length (arrays s),
   State (heap s) (arrays s ++ [xs]) (promises s) (log s)).

(** [args.push(x)] *)
Definition array_push (a : nat) (x : value) (s : state) : state :=
  State (heap s) (alter (λ xs, xs ++ [x]) a (arrays s))
        (promises s) (log s).

Definition array_read (a : nat) (s : state) : list value :=
  default [] (arrays s !! a).

(** [new Promise(...)] before its executor runs. *)
Definition new_promise (s : state) : nat * state :=
  (length (promises s),
   State (heap s) (arrays s) (promises s ++ [Pending]) (log s)).

Definition promise_state (s : state) (p : nat) : option pstate :=
  promises s !! p.

(** [resolve(v)] and [reject(e)]: only the first one counts. *)
Definition settle (p : nat) (st : pstate) (s : state) : state :=
  match promises s !! p with
  | Some Pending =>
      State (heap s) (arrays s) (<[p := st]> (promises s)) (log s)
  | _ => s
  end.

Definition log_call (id : nat) (this : value) (args : list value)
    (s : state) : state :=
  State (heap s) (arrays s) (promises s) (log s ++ [(id, this, args)]).

(** [args[i]] *)
Definition arg (i : nat) (args : list value) : value :=
  default VUndef (args !! i).

(** [arguments[arguments.length - 1]] *)
Definition last_arg (args : list value) : value :=
  default VUndef (last args).

(** ** Host functions

    The code of a host function is a tree of the actions it can take on
    the values it is given: call one of them, read or write a property,
    and finally return or throw. *)

Inductive body :=
| Done (o : outcome)
| Invoke (f this : value) (args : list value) (k : outcome → body)
| GetProp (v : value) (key : string) (k : outcome → body)
| SetProp (v : value) (key : string) (x : value) (k : outcome → body).

Section Semantics.

(** The host program: the code of function [id] applied to [this] and
    its arguments. *)
Variable extern : nat → value → list value → body.

Fixpoint run_body
    (callf : value → value → list value → state → option (outcome * state))
    (b : body) (s : state) : option (outcome * state) :=
  match b with
  | Done o => Some (o, s)
  | Invoke f this args k =>
      match callf f this args s with
      | Some (o, s') => run_body callf (k o) s'
      | None => None
      end
  | GetProp v key k =>
      match get_prop s v key with
      | Ok x => run_body callf (k (Return x)) s
      | Raise e => run_body callf (k (Throw e)) s
      end
  | SetProp v key x k =>
      match set_prop s v key x with
      | Ok s' => run_body callf (k (Return x)) s'
      | Raise e => run_body callf (k (Throw e)) s
      end
  end.

(** [f.apply(this, args)] with [n] levels of nested calls allowed;
    [None] when they do not suffice. *)
Fixpoint call (n : nat) (f this : value) (args : list value) (s : state)
    : option (outcome * state) :=
  match n with
  | 0 => None
  | S n =>
      match f with
      | VFun (FExtern id) =>
          run_body (call n) (extern id this args) (log_call id this args s)
      | VFun (FWrapper client fn wrapCallback) =>
          (* lines 90-100 *)
          if is_function (last_arg args) then call n fn client args s
          else
            let '(a, s1) := new_array args s in
            call n wrapCallback VUndef [VFun (FAppend client fn a)] s1
      | VFun (FAppend client fn a) =>
          (* lines 96-99 *)
          let s1 := array_push a (arg 0 args) s in
          call n fn client (array_read a s1) s1
      | VFun FFromCallback =>
          (* lines 63-74 *)
          let '(p, s1) := new_promise s in
          match call n (arg 0 args) VUndef [VFun (FSettle p)] s1 with
          | Some (Return _, s2) => Some (Return (VPromise p), s2)
          | Some (Throw e, s2) =>
              Some (Return (VPromise p), settle p (Rejected e) s2)
          | None => None
          end
      | VFun (FSettle p) =>
          (* lines 66-69 *)
          let err := arg 0 args in
          if truthy err
          then Some (Return VUndef, settle p (Rejected err) s)
          else Some (Return VUndef, settle p (Resolved (arg 1 args)) s)
      | _ => Some (Throw type_error, s)
      end
  end.

(** The call terminates with [r]. *)
Definition evals (f this : value) (args : list value) (s : state)
    (r : outcome * state) : Prop :=
  ∃ n, call n f this args s = Some r.

End Semantics.

(** ** [promisify] *)

(** The first [forEach] of [patch] (lines 85-102). *)
Fixpoint patch_methods (wrapCallback client : value)
    (ms : list (string * method)) (s : state) : outcome * state :=
  match ms with
  | [] => (Return VUndef, s)
  | (_, m) :: rest =>
      match get_prop s client (m_name m) with
      | Raise e => (Throw e, s)
      | Ok fn =>
          if is_callback (m_type m) then
            match set_prop s client (m_name m)
                    (VFun (FWrapper client fn wrapCallback)) with
            | Ok s1 => patch_methods wrapCallback client rest s1
            | Raise e => (Throw e, s)
            end
          else patch_methods wrapCallback client rest s
      end
  end.

(** The second [forEach] of [patch] (lines 105-107); [rec] is [patch]
    itself. *)
Section PatchNested.
Variable rec : tree → value → state → outcome * state.
Variable client : value.

Fixpoint patch_objects (entries : list (string * tree)) (s : state)
    : outcome * state :=
  match entries with
  | [] => (Return VUndef, s)
  | (key, sub) :: rest =>
      match get_prop s client (toLowerCase key) with
      | Raise e => (Throw e, s)
      | Ok c =>
          match rec sub c s with
          | (Throw e, s') => (Throw e, s')
          | (Return _, s') => patch_objects rest s'
          end
      end
  end.
End PatchNested.

(** [patch] (lines 84-109). *)
Fixpoint patch (wrapCallback : value) (t : tree) (client : value)
    (s : state) {struct t} : outcome * state :=
  match t with
  | Tree _ _ None _ => (Throw type_error, s)   (* [Object.keys(undefined)] *)
  | Tree _ _ (Some ms) objects =>
      match patch_methods wrapCallback client ms s with
      | (Throw e, s1) => (Throw e, s1)
      | (Return _, s1) =>
          match objects with
          | None => (Return VUndef, s1)
          | Some objs => patch_objects (patch wrapCallback) client objs s1
          end
      end
  end.

(** [client.constructor] *)
Definition constructor_of (s : state) (client : value) : definition :=
  match client with
  | VRef l => o_constructor (heap_get s l)
  | VBool _ => builtin "Boolean"
  | VNum _ => builtin "Number"
  | VStr _ => builtin "String"
  | VPromise _ => builtin "Promise"
  | VError KError _ => builtin "Error"
  | VError KTypeError _ => builtin "TypeError"
  | VFun _ => builtin "Function"
  | VUndef | VNull => Plain client
  end.

Definition promisify (client wrapCallback : value) (s : state)
    : outcome * state :=
  if negb (truthy client) then (Throw client_required, s)
  else
    let wrapCallback :=
      if truthy wrapCallback then wrapCallback else VFun FFromCallback in
    (* [patch(client, walk(client.constructor))] *)
    match walk (Args1 (constructor_of s client)) with
    | Raise e => (Throw e, s)
    | Ok t => patch wrapCallback t client s
    end.

(** ** [walk] on the object store

    Above, definitions and trees are values.  To state what [walk]
    writes, the same function is transcribed here on a store in which
    the definition, its prototype, its [meta] map and the tree are all
    objects with identity, allocated in order.  A property is
    enumerable or not ([name] and [prototype] of a function are not). *)

Record sprop := Property { sp_enumerable : bool; sp_value : value }.

Definition sobject : Type := list (string * sprop).

Abbreviation store := (list sobject).

(** An object literal. *)
Definition literal (fields : list (string * value)) : sobject :=
  map (λ f, (fst f, Property true (snd f))) fields.

Definition sobject_get (o : sobject) (key : string) : value :=
  from_option sp_value VUndef (assoc key o).

(** Assignment keeps the attributes of a property that exists. *)
Definition sobject_set (o : sobject) (key : string) (x : value) : sobject :=
  match assoc key o with
  | Some p => assoc_set key (Property (sp_enumerable p) x) o
  | None => assoc_set key (Property true x) o
  end.

Definition sobject_keys (o : sobject) : list string :=
  keys (filter (λ e, sp_enumerable (snd e) = true) o).

(** Completion of a computation on the store; [Diverge] when the
    recursion allowance does not suffice. *)
Inductive res (A : Type) :=
| Val (a : A) (h : store)
| Exc (e : value) (h : store)
| Diverge.
Arguments Val {A} a h.
Arguments Exc {A} e h.
Arguments Diverge {A}.

Definition M (A : Type) : Type := store → res A.

Definition sret {A} (a : A) : M A := λ h, Val a h.

Definition sthrow {A} (e : value) : M A := λ h, Exc e h.

Definition sbind {A B} (c : M A) (k : A → M B) : M B :=
  λ h, match c h with
       | Val a h' => k a h'
       | Exc e h' => Exc e h'
       | Diverge => Diverge
       end.

Notation "'let*' x ':=' c 'in' k" := (sbind c (λ x, k))
  (at level 10, x name, c at level 100, k at level 200).
Notation "c ';;;' k" := (sbind c (λ _, k))
  (at level 100, k at level 200, right associativity).

(** [v[key]] *)
Definition sget (v : value) (key : string) : M value :=
  λ h, match v with
       | VUndef | VNull => Exc type_error h
       | VRef l =>
           match h !! l with
           | Some o => Val (sobject_get o key) h
           | None => Exc type_error h   (* no object: not a reference *)
           end
       | _ => Val VUndef h
       end.

(** [v[key] = x] in strict mode *)
Definition sset (v : value) (key : string) (x : value) : M unit :=
  λ h, match v with
       | VRef l =>
           match h !! l with
           | Some o => Val tt (<[l := sobject_set o key x]> h)
           | None => Exc type_error h
           end
       | _ => Exc type_error h
       end.

(** An object literal evaluated: a new object. *)
Definition salloc (o : sobject) : M value :=
  λ h, Val (VRef (length h)) (h ++ [o]).

(** [Object.keys(v)] *)
Definition skeys (v : value) : M (list string) :=
  λ h, match v with
       | VUndef | VNull => Exc type_error h
       | VRef l =>
           match h !! l with
           | Some o => Val (sobject_keys o) h
           | None => Exc type_error h
           end
       | _ => Val [] h
       end.

(** [ks.forEach(f)] *)
Fixpoint for_each (ks : list string) (f : string → M unit) : M unit :=
  match ks with
  | [] => sret tt
  | key :: rest => f key ;;; for_each rest f
  end.

(** The callback of the first [forEach] (lines 26-40). *)
Definition swalk_method (obj tree : value) (key : string) : M unit :=
  let* proto := sget obj "prototype" in
  let* v := sget proto key in
  if negb (starts_lower key) then sret tt
  else
    let* ms := sget tree "methods" in
    (if negb (truthy ms)
     then let* fresh := salloc (literal []) in sset tree "methods" fresh
     else sret tt) ;;;
    let* ms := sget tree "methods" in
    let* d := salloc (literal [("name", VStr key); ("value", v)]) in
    sset ms key d ;;;
    let* meta0 := sget obj "meta" in
    let* meta := (if truthy meta0 then sret meta0 else salloc (literal [])) in
    let* ms := sget tree "methods" in
    let* d := sget ms key in
    let* e := sget meta key in
    let* ty := (if truthy e
                then let* ty := sget e "type" in
                     sret (if truthy ty then ty else VStr "callback")
                else sret (VStr "callback")) in
    sset d "type" ty.

(** The callback of the second [forEach] (lines 42-54); [rec] is the
    recursive call. *)
Definition swalk_object (rec : list value → M value) (obj tree : value)
    (key : string) : M unit :=
  let* v := sget obj key in
  if negb (starts_upper key) then sret tt
  else
    let* os := sget tree "objects" in
    (if negb (truthy os)
     then let* fresh := salloc (literal []) in sset tree "objects" fresh
     else sret tt) ;;;
    let* os := sget tree "objects" in
    let* node := salloc (literal [("name", VStr key); ("value", v)]) in
    sset os key node ;;;
    let* os := sget tree "objects" in
    let* node := sget os key in
    rec [v; VStr key; node] ;;;
    sret tt.

(** [walk.apply(undefined, args)] on the store. *)
Fixpoint swalk (fuel : nat) (args : list value) : M value :=
  match fuel with
  | 0 => λ _, Diverge
  | S fuel =>
      let obj := arg 0 args in
      let* nt :=
        match length args with
        | 1 => let* name := sget obj "name" in
               let* tree := salloc (literal [("name", name)]) in
               sret (name, tree)
        | 2 => let* tree := salloc (literal [("name", arg 1 args)]) in
               sret (arg 1 args, tree)
        | 3 => sret (arg 1 args, arg 2 args)
        | _ => sthrow invalid_arguments
        end in
      let tree := snd nt in
      let* proto := sget obj "prototype" in
      let* ks := skeys proto in
      for_each ks (swalk_method obj tree) ;;;
      let* ks := skeys obj in
      for_each ks (swalk_object (swalk fuel) obj tree) ;;;
      sret tree
  end.

(** [prot] is a set of objects of the store [h]. *)
Definition valid (prot : nat → Prop) (h : store) : Prop :=
  ∀ l, prot l → (l < length h)%nat.

(** [h'] extends [h] and holds the same objects at [prot]. *)
Definition preserves (prot : nat → Prop) (h h' : store) : Prop :=
  (length h ≤ length h')%nat ∧ ∀ l, prot l → h' !! l = h !! l.

(** [v] is no reference to an object of [prot], nor to the object [t]. *)
Definition apart (prot : nat → Prop) (t : nat) (v : value) : Prop :=
  ∀ l, v = VRef l → ¬ prot l ∧ l ≠ t.

(** The tree under construction is an object outside [prot], and so are
    its [methods] and [objects] maps, which are objects of their own. *)
Definition tree_apart (prot : nat → Prop) (tree : value) (h : store) : Prop :=
  ∀ t o, tree = VRef t → h !! t = Some o →
    ¬ prot t
    ∧ apart prot t (sobject_get o "methods")
    ∧ apart prot t (sobject_get o "objects").

(** What a computation on the store guarantees from [h]: it leaves
    [prot] as it is, and [Q] holds when it returns. *)
Definition ok {A} (prot : nat → Prop) (c : M A) (h : store)
    (Q : A → store → Prop) : Prop :=
  valid prot h →
  match c h with
  | Val a h' => preserves prot h h' ∧ Q a h'
  | Exc _ h' => preserves prot h h'
  | Diverge => True
  end.

(** What [sget v key] can return in [h]. *)
Definition reads (v : value) (key : string) (h : store) (a : value) : Prop :=
  match v with
  | VRef l => ∃ o, h !! l = Some o ∧ a = sobject_get o key
  | _ => a = VUndef
  end.

(** A definition in the store: a function object with its [name] and
    [prototype]. *)
Definition function_object (name : string) (prototype : nat)
    (fields : list (string * value)) : sobject :=
  [("name", Property false (VStr name));
   ("prototype", Property false (VRef prototype))] ++ literal fields.

(** [Outer] and [Inner] in the store; [Inner] has a [meta] map. *)
Definition sample_store : store :=
  [ function_object "Outer" 1 [("Inner", VRef 2); ("version", VStr "1.0")];
    literal [("list", VFun (FExtern 0)); ("_opts", VNum 0)];
    function_object "Inner" 3 [("meta", VRef 4)];
    literal [("get", VFun (FExtern 1)); ("raw", VFun (FExtern 5))];
    literal [("raw", VRef 5)];
    literal [("type", VStr "sync")] ].

(** ** From the store to values

    What an object of the store denotes as a definition or as a tree of
    the first model, read to the depth [fuel]. *)

Definition sobject_entries (o : sobject) : list (string * value) :=
  map (λ e, (fst e, sp_value (snd e)))
      (filter (λ e, sp_enumerable (snd e) = true) o).

Definition store_field (h : store) (v : value) (key : string) : value :=
  match v with
  | VRef l => from_option (λ o, sobject_get o key) VUndef (h !! l)
  | _ => VUndef
  end.

Definition store_entries (h : store) (v : value)
    : option (list (string * value)) :=
  match v with
  | VRef l => sobject_entries <$> h !! l
  | _ => None
  end.

Definition meta_of (h : store) (v : value)
    : option (list (string * meta_entry)) :=
  map (λ e, (fst e, {| me_type := store_field h (snd e) "type" |}))
    <$> store_entries h v.

Fixpoint definition_of (fuel : nat) (h : store) (v : value) : definition :=
  match fuel with
  | 0 => Plain v
  | S fuel =>
      match store_entries h (store_field h v "prototype"),
            store_entries h v with
      | Some prototype, Some statics =>
          Def (store_field h v "name") prototype
              (meta_of h (store_field h v "meta"))
              (map (λ e, (fst e, definition_of fuel h (snd e))) statics)
      | _, _ => Plain v
      end
  end.

Definition method_of (h : store) (e : string * value) : string * method :=
  (fst e,
   Method (match store_field h (snd e) "name" with
           | VStr name => name
           | _ => EmptyString
           end)
          (store_field h (snd e) "value")
          (store_field h (snd e) "type")).

Fixpoint tree_of (fuel : nat) (h : store) (v : value) : tree :=
  match fuel with
  | 0 => fresh_tree VUndef
  | S fuel =>
      Tree (store_field h v "name")
           (match store_field h v "value" with
            | VUndef => None
            | d => Some (definition_of fuel h d)
            end)
           (map (method_of h) <$> store_entries h (store_field h v "methods"))
           (map (λ e, (fst e, tree_of fuel h (snd e)))
              <$> store_entries h (store_field h v "objects"))
  end.

(** ** Auxiliary notions for the statements *)

(** The wrapping adapter of a run of [promisify] (line 82). *)
Definition adapter_of (wrapCallback : value) : value :=
  if truthy wrapCallback then wrapCallback else VFun FFromCallback.

(** A tree as [walk] leaves it: a [methods] map exists only with an
    entry, at every node. *)
Fixpoint built (t : tree) : bool :=
  match t with
  | Tree _ _ ms objs =>
      match ms with Some [] => false | _ => true end
      && match objs with
         | None => true
         | Some entries => forallb (λ e, built (snd e)) entries
         end
  end.

(** [reaches wc t c s node cn sn]: the traversal [patch wc t c s] calls
    [patch] on [node] with the live object [cn] in the state [sn]. *)
Inductive reaches (wc : value)
  : tree → value → state → tree → value → state → Prop :=
| reaches_here t c s :
    reaches wc t c s t c s
| reaches_nested tname tvalue ms pre key sub post c s s1 s2 c' node cn sn :
    patch_methods wc c ms s = (Return VUndef, s1) →
    patch_objects (patch wc) c pre s1 = (Return VUndef, s2) →
    get_prop s2 c (toLowerCase key) = Ok c' →
    reaches wc sub c' s2 node cn sn →
    reaches wc (Tree tname tvalue (Some ms)
                     (Some (pre ++ (key, sub) :: post))) c s node cn sn.

(** [wrapped wc c orig d v]: [v] is [orig] under [d] layers of the
    dual-mode wrapper that [patch] makes for the live object [c]. *)
Inductive wrapped (wc c orig : value) : nat → value → Prop :=
| wrapped_O : wrapped wc c orig 0 orig
| wrapped_S d v :
    wrapped wc c orig d v →
    wrapped wc c orig (S d) (VFun (FWrapper c v wc)).

(** Every property of every live object is what it was, under some
    layers of wrappers of that object. *)
Definition patched (wc : value) (s s' : state) : Prop :=
  ∀ l key, ∃ d,
    wrapped wc (VRef l) (object_get (heap_get s l) key) d
            (object_get (heap_get s' l) key).

(** A promise that is settled in [s] is settled alike in [s']. *)
Definition keeps_settled (s s' : state) : Prop :=
  ∀ p st, promises s !! p = Some st → st ≠ Pending →
          promises s' !! p = Some st.

(** How the callback of [fromCallback] settles its promise when it is
    called with the arguments [cbargs], that is [(err, data)]. *)
Definition settlement (cbargs : list value) : pstate :=
  if truthy (arg 0 cbargs) then Rejected (arg 0 cbargs)
  else Resolved (arg 1 cbargs).

(** The state in which the original operation starts on the promise
    path: the wrapper has copied its arguments into a new array,
    [fromCallback] has made a promise, and the callback was pushed. *)
Definition promise_path_entry (args : list value) (s : state) : state :=
  State (heap s)
        (arrays s ++ [args ++ [VFun (FSettle (length (promises s)))]])
        (promises s ++ [Pending]) (log s).

(** A host function body that, after reading and writing properties,
    calls [cb] with the arguments [cbargs], whatever it does next. *)
Inductive calls_back (cb : value) (cbargs : list value) : body → Prop :=
| calls_back_now this k :
    calls_back cb cbargs (Invoke cb this cbargs k)
| calls_back_get v key k :
    (∀ o, calls_back cb cbargs (k o)) →
    calls_back cb cbargs (GetProp v key k)
| calls_back_set v key x k :
    (∀ o, calls_back cb cbargs (k o)) →
    calls_back cb cbargs (SetProp v key x k).

(** ** Well-formed definitions

    Every property of the definition whose name starts with an uppercase
    letter is itself a definition, hereditarily. *)

Fixpoint well_formed (d : definition) : bool :=
  match d with
  | Plain _ => false
  | Def _ _ _ statics =>
      forallb (λ e, negb (starts_upper (fst e)) || well_formed (snd e))
              statics
  end.

Definition method_keys (t : tree) : list string :=
  keys (default [] (t_methods t)).

Definition object_keys (t : tree) : list string :=
  keys (default [] (t_objects t)).

(** ** Further notions for the statements *)

(** [arguments[0]] of a call of [walk]. *)
Definition args_obj (a : walk_args) : definition :=
  match a with
  | Args0 => Plain VUndef
  | Args1 obj | Args2 obj _ | Args3 obj _ _ | ArgsMore obj _ _ _ _ => obj
  end.

(** The tree [t] under another name. *)
Definition rename (name : value) (t : tree) : tree :=
  Tree name (t_value t) (t_methods t) (t_objects t).

(** The names of the callback-mode methods of a tree, at every node:
    the properties that [patch] assigns. *)
Fixpoint callback_names (t : tree) : list string :=
  match t with
  | Tree _ _ ms objs =>
      map (λ e, m_name (snd e))
          (filter (λ e, is_callback (m_type (snd e)) = true) (default [] ms))
      ++ match objs with
         | None => []
         | Some entries => flat_map (λ e, callback_names (snd e)) entries
         end
  end.

(** The accessors that [patch] reads, at every node. *)
Fixpoint accessor_names (t : tree) : list string :=
  match t with
  | Tree _ _ _ objs =>
      match objs with
      | None => []
      | Some entries =>
          flat_map (λ e, toLowerCase (fst e) :: accessor_names (snd e))
                   entries
      end
  end.

(** [client[key.toLowerCase()]], [undefined] where the access throws. *)
Definition accessor (s : state) (client : value) (key : string) : value :=
  match get_prop s client (toLowerCase key) with
  | Ok v => v
  | Raise _ => VUndef
  end.

Definition is_ref (v : value) : bool :=
  match v with VRef _ => true | _ => false end.

(** The live objects mirror the tree: every node has a [methods] map
    and meets a live object, down the accessors. *)
Fixpoint conforms (s : state) (t : tree) (client : value) : bool :=
  match t with
  | Tree _ _ ms objs =>
      is_ref client
      && match ms with Some _ => true | None => false end
      && match objs with
         | None => true
         | Some entries =>
             forallb (λ e, conforms s (snd e) (accessor s client (fst e)))
                     entries
         end
  end.

(** What [patch] leaves alone: the arrays, the promises, the log, the
    prototype chains, and every property whose name is not in [names]. *)
Definition untouched (names : list string) (s s' : state) : Prop :=
  arrays s' = arrays s
  ∧ promises s' = promises s
  ∧ log s' = log s
  ∧ ∀ l, o_proto (heap_get s' l) = o_proto (heap_get s l)
         ∧ ∀ key, key ∉ names →
                  object_get (heap_get s' l) key
                  = object_get (heap_get s l) key.

(** The size of a value as a term. *)
Fixpoint value_size (v : value) : nat :=
  match v with
  | VFun f => S (func_size f)
  | _ => 1
  end
with func_size (f : func) : nat :=
  match f with
  | FWrapper client fn wrapCallback =>
      S (value_size client + value_size fn + value_size wrapCallback)
  | FAppend client fn _ => S (value_size client + value_size fn)
  | _ => 1
  end.

(** ** A sample host program

    [Outer] has the operation [list] and the nested capability [Inner]
    with the operation [get]; [Bare] has a surface without operation. *)

Definition boom : value := VError KError "boom".

Definition forward (o : outcome) : body :=
  match o with
  | Throw e => Done (Throw e)
  | Return _ => Done (Return VUndef)
  end.

Definition host (id : nat) (this : value) (args : list value) : body :=
  match id with
  | 0 => (* list: calls back with (null, 42) *)
      Invoke (last_arg args) VUndef [VNull; VNum 42] forward
  | 1 => (* get: throws before it calls back *)
      Done (Throw boom)
  | 2 => (* calls back with an error *)
      Invoke (last_arg args) VUndef [boom; VUndef] forward
  | _ => Done (Return VUndef)
  end.

Definition Inner : definition :=
  Def (VStr "Inner") [("get", VFun (FExtern 1))] None [].

Definition Outer : definition :=
  Def (VStr "Outer")
      [("list", VFun (FExtern 0)); ("_opts", VNum 0)]
      None
      [("Inner", Inner); ("version", Plain (VStr "1.0"))].

Definition Bare : definition :=
  Def (VStr "Bare") [("_request", VFun (FExtern 3))] None [].

(** An [Outer] whose [inner] is a live [Inner]. *)
Definition sample_state : state :=
  State (<[0 := Object Outer [("inner", VRef 1)] [("list", VFun (FExtern 0))]]>
           (<[1 := Object Inner [] [("get", VFun (FExtern 1))]]> ∅))
        [] [] [].

(** An [Outer] that has no [inner]. *)
Definition sample_missing : state :=
  State (<[0 := Object Outer [] [("list", VFun (FExtern 0))]]> ∅) [] [] [].

(** A [Bare] instance. *)
Definition sample_bare : state :=
  State (<[0 := Object Bare [] [("_request", VFun (FExtern 3))]]> ∅)
        [] [] [].

(** [sample_state] after [promisify(client)]. *)
Definition sample_patched : state :=
  snd (promisify (VRef 0) VUndef sample_state).

(** The tree of [Inner] inside the tree of [Outer]. *)
Definition inner_node : tree :=
  Tree (VStr "Inner") (Some Inner)
       (Some [("get", Method "get" (VFun (FExtern 1)) (VStr "callback"))])
       None.

Definition outer_tree : tree :=
  Tree (VStr "Outer") None
       (Some [("list", Method "list" (VFun (FExtern 0)) (VStr "callback"))])
       (Some ([] ++ [("Inner", inner_node)])).

(** [sample_state] once the operations of the root are wrapped, when
    the traversal enters [inner]. *)
Definition sample_midway : state :=
  snd (patch_methods (VFun FFromCallback) (VRef 0)
         [("list", Method "list" (VFun (FExtern 0)) (VStr "callback"))]
         sample_state).

(** A definition with a constant among its uppercase-leading
    properties, and an instance of it. *)
Definition Versioned : definition :=
  Def (VStr "Versioned") [("list", VFun (FExtern 0))] None
      [("VERSION", Plain (VStr "1.0"))].

Definition sample_versioned : state :=
  State (<[0 := Object Versioned [] [("list", VFun (FExtern 0))]]> ∅)
        [] [] [].

(** A tree that holds a descriptor already. *)
Definition seeded_tree : tree :=
  Tree (VStr "seed") None
       (Some [("ping", Method "ping" VNull (VStr "sync"))]) None.

(** A host program with an adapter of its own (function 4) that calls
    the function it is given twice, with the callbacks 5 and 6. *)
Definition retry_host (id : nat) (this : value) (args : list value) : body :=
  match id with
  | 4 =>
      Invoke (arg 0 args) VUndef [VFun (FExtern 5)]
        (λ _, Invoke (arg 0 args) VUndef [VFun (FExtern 6)]
                (λ _, Done (Return (VNum 7))))
  | _ => host id this args
  end.

(** [sample_state] after [promisify(client, adapter)]. *)
Definition sample_custom : state :=
  snd (promisify (VRef 0) (VFun (FExtern 4)) sample_state).

(** A definition whose nested capability [Admin] only groups a further
    capability and has no operation of its own, with a live instance
    that mirrors it. *)
Definition Users : definition :=
  Def (VStr "Users") [("get", VFun (FExtern 1))] None [].

Definition Admin : definition :=
  Def (VStr "Admin") [] None [("Users", Users)].

Definition Api : definition :=
  Def (VStr "Api") [("list", VFun (FExtern 0))] None [("Admin", Admin)].

Definition sample_api : state :=
  State (<[0 := Object Api [("admin", VRef 1)] [("list", VFun (FExtern 0))]]>
           (<[1 := Object Admin [("users", VRef 2)] []]>
              (<[2 := Object Users [] [("get", VFun (FExtern 1))]]> ∅)))
        [] [] [].

Definition admin_node : tree :=
  Tree (VStr "Admin") (Some Admin) None
       (Some [("Users",
               Tree (VStr "Users") (Some Users)
                    (Some [("get", Method "get" (VFun (FExtern 1))
                                          (VStr "callback"))])
                    None)]).

Definition api_tree : tree :=
  Tree (VStr "Api") None
       (Some [("list", Method "list" (VFun (FExtern 0)) (VStr "callback"))])
       (Some ([] ++ [("Admin", admin_node)])).

(** A host program with an operation that returns its receiver
    (function 7), and a definition with it and with an operation that
    calls back with an error (function 2 of [host]). *)
Definition probe_host (id : nat) (this : value) (args : list value) : body :=
  match id with
  | 7 => Done (Return this)
  | _ => host id this args
  end.

Definition Probe : definition :=
  Def (VStr "Probe")
      [("fetch", VFun (FExtern 2)); ("self", VFun (FExtern 7))] None [].

Definition sample_probe : state :=
  State (<[0 := Object Probe []
                  [("fetch", VFun (FExtern 2)); ("self", VFun (FExtern 7))]]>
           ∅)
        [] [] [].

Definition probe_tree : tree :=
  Tree (VStr "Probe") None
       (Some [("fetch", Method "fetch" (VFun (FExtern 2)) (VStr "callback"));
              ("self", Method "self" (VFun (FExtern 7)) (VStr "callback"))])
       None.

(** [sample_probe] after [promisify(client)]. *)
Definition sample_probe_patched : state :=
  snd (promisify (VRef 0) VUndef sample_probe).

(** * Properties of [walk] *)

Lemma definition_induction (P : definition → Prop) :
  (∀ name prototype meta statics,
      Forall (λ e, P (snd e)) statics → P (Def name prototype meta statics)) →
  (∀ v, P (Plain v)) →
  ∀ d, P d.
Proof.
  intros HDef HPlain. fix IH 1.
  intros [name prototype meta statics | v]; [apply HDef | apply HPlain].
  induction statics as [| [k d] rest IHrest]; constructor;
    [apply IH | apply IHrest].
Qed.

Section AssocFacts.
Context {A : Type}.
Implicit Types (o : list (string * A)) (k : string).

Lemma keys_assoc_set k k' (v : A) o :
  k' ∈ keys (assoc_set k v o) ↔ k' = k ∨ k' ∈ keys o.
Proof.
  unfold keys. induction o as [| [k0 v0] rest IH]; simpl.
  - rewrite list_elem_of_singleton. set_solver.
  - destruct (String.eqb_spec k k0) as [-> | Hne]; simpl.
    + set_solver.
    + rewrite !elem_of_cons, IH. naive_solver.
Qed.

Lemma assoc_set_nonempty k (v : A) o : assoc_set k v o ≠ [].
Proof. destruct o as [| [k0 v0] rest]; simpl; [done |]. by destruct (k =? k0)%string. Qed.

Lemma NoDup_keys_assoc_set k (v : A) o :
  NoDup (keys o) → NoDup (keys (assoc_set k v o)).
Proof.
  unfold keys. induction o as [| [k0 v0] rest IH]; simpl; intros Hnd.
  - apply NoDup_singleton.
  - apply NoDup_cons in Hnd as [Hnotin Hnd].
    destruct (String.eqb_spec k k0) as [-> | Hne]; simpl.
    + by apply NoDup_cons.
    + apply NoDup_cons. split; [| by apply IH].
      intros Hin. apply (keys_assoc_set k k0 v rest) in Hin.
      destruct Hin as [-> | Hin]; [done | by apply Hnotin].
Qed.

Lemma assoc_assoc_set_eq k (v : A) o : assoc k (assoc_set k v o) = Some v.
Proof.
  induction o as [| [k0 v0] rest IH]; simpl.
  - by rewrite String.eqb_refl.
  - destruct (String.eqb_spec k k0) as [-> | Hne]; simpl.
    + by rewrite String.eqb_refl.
    + by destruct (String.eqb_spec k k0).
Qed.

Lemma assoc_assoc_set_ne k k' (v : A) o :
  k' ≠ k → assoc k' (assoc_set k v o) = assoc k' o.
Proof.
  intros Hne. induction o as [| [k0 v0] rest IH]; simpl.
  - by destruct (String.eqb_spec k' k).
  - destruct (String.eqb_spec k k0) as [-> | Hne0]; simpl.
    + by destruct (String.eqb_spec k' k0).
    + by rewrite IH.
Qed.
End AssocFacts.

Section WalkFacts.
Implicit Types (t : tree) (k key : string) (d obj : definition).

Lemma walk_method_fields meta t e :
  t_name (walk_method meta t e) = t_name t
  ∧ t_value (walk_method meta t e) = t_value t
  ∧ t_objects (walk_method meta t e) = t_objects t.
Proof. destruct e as [key v]. simpl. by destruct (starts_lower key). Qed.

Lemma walk_methods_fields meta prototype t :
  let t' := fold_left (walk_method meta) prototype t in
  t_name t' = t_name t ∧ t_value t' = t_value t
  ∧ t_objects t' = t_objects t.
Proof.
  revert t. induction prototype as [| e rest IH]; intros t; simpl; [done |].
  destruct (IH (walk_method meta t e)) as (-> & -> & ->).
  apply walk_method_fields.
Qed.

Lemma walk_methods_keys meta prototype t k :
  k ∈ method_keys (fold_left (walk_method meta) prototype t)
  ↔ k ∈ method_keys t ∨ (k ∈ keys prototype ∧ starts_lower k = true).
Proof.
  revert t. induction prototype as [| [key v] rest IH]; intros t; simpl.
  - unfold keys; simpl. set_solver.
  - rewrite IH. change (keys ((key, v) :: rest)) with (key :: keys rest).
    rewrite elem_of_cons.
    destruct (starts_lower key) eqn:Hlow; [| intuition (subst; congruence || auto)].
    unfold method_keys; simpl. rewrite keys_assoc_set. intuition (subst; congruence || auto).
Qed.

Lemma walk_methods_absent meta prototype t :
  t_methods (fold_left (walk_method meta) prototype t) = None
  ↔ t_methods t = None ∧ ∀ k, k ∈ keys prototype → starts_lower k = false.
Proof.
  revert t. induction prototype as [| [key v] rest IH]; intros t; simpl.
  - unfold keys; simpl. set_solver.
  - rewrite IH. change (keys ((key, v) :: rest)) with (key :: keys rest).
    destruct (starts_lower key) eqn:Hlow; simpl.
    + split; [intros [? _]; done |].
      intros [_ Hall]. specialize (Hall key). rewrite Hlow in Hall.
      discriminate Hall. set_solver.
    + split.
      * intros [? Hall]. split; [done |].
        intros k [-> | Hin]%elem_of_cons; auto.
      * intros [? Hall]. split; [done |]. intros k Hin. apply Hall.
        set_solver.
Qed.

Lemma walk_nested_fields rec statics t t' :
  walk_nested rec statics t = Ok t' →
  t_name t' = t_name t ∧ t_value t' = t_value t
  ∧ t_methods t' = t_methods t.
Proof.
  revert t. induction statics as [| [key v] rest IH]; intros t; simpl.
  - by intros [= ->].
  - destruct (starts_upper key); [| by apply IH].
    destruct (rec v (VStr key) (fresh_node key v)) as [child | e]; [| done].
    intros Hrest. by destruct (IH _ Hrest) as (-> & -> & ->).
Qed.

Lemma walk_nested_keys rec statics t t' k :
  walk_nested rec statics t = Ok t' →
  k ∈ object_keys t'
  ↔ k ∈ object_keys t ∨ (k ∈ keys statics ∧ starts_upper k = true).
Proof.
  revert t. induction statics as [| [key v] rest IH]; intros t; simpl.
  - intros [= ->]. unfold keys; simpl. set_solver.
  - change (keys ((key, v) :: rest)) with (key :: keys rest).
    rewrite elem_of_cons.
    destruct (starts_upper key) eqn:Hup.
    + destruct (rec v (VStr key) (fresh_node key v)) as [child | e];
        [| done].
      intros Hrest. rewrite (IH _ Hrest).
      unfold object_keys; simpl. rewrite keys_assoc_set. intuition (subst; congruence || auto).
    + intros Hrest. rewrite (IH _ Hrest). intuition (subst; congruence || auto).
Qed.

(** At an accepted arity the only failure is a [TypeError] of the
    runtime, on a nested property that is no definition. *)
Lemma walk_body_raise obj :
  ∀ name t e, walk_body obj name t = Raise e → e = type_error.
Proof.
  induction obj as [dname prototype meta statics IH | v]
    using definition_induction; intros name t e; simpl;
    [| by intros [= <-]].
  generalize (fold_left (walk_method meta) prototype t). clear t.
  induction IH as [| [key v] rest Hv _ IHrest]; intros t; simpl; [done |].
  destruct (starts_upper key); [| apply IHrest].
  destruct (walk_body v (VStr key) (fresh_node key v)) as [child | e'] eqn:Hc.
  - apply IHrest.
  - intros [= <-]. eapply Hv, Hc.
Qed.

Lemma walk_body_total obj :
  well_formed obj = true → ∀ name t, ∃ t', walk_body obj name t = Ok t'.
Proof.
  induction obj as [dname prototype meta statics IH | v]
    using definition_induction; simpl; [| done].
  intros Hwf name t.
  generalize (fold_left (walk_method meta) prototype t). clear t.
  induction IH as [| [key v] rest Hv _ IHrest]; intros t; simpl; [eauto |].
  simpl in Hwf, Hv. apply andb_true_iff in Hwf as [Hhead Hrest].
  destruct (starts_upper key); [| by apply IHrest].
  destruct (Hv Hhead (VStr key) (fresh_node key v)) as [child ->].
  by apply IHrest.
Qed.
End WalkFacts.

Lemma walk_methods_NoDup meta prototype t :
  NoDup (method_keys t) →
  NoDup (method_keys (fold_left (walk_method meta) prototype t)).
Proof.
  revert t. induction prototype as [| [key v] rest IH]; intros t Hnd; simpl;
    [done |].
  apply IH. destruct (starts_lower key); [| done].
  unfold method_keys; simpl. by apply NoDup_keys_assoc_set.
Qed.

(** C3. For a well-formed definition, [walk] called with one or two
    arguments returns a tree whose [methods] keys are exactly the keys of
    the prototype that start with a lowercase letter, and whose [objects]
    keys are exactly the keys of the definition that start with an
    uppercase letter; all other keys are ignored. *)
Theorem build_keys_exact name prototype meta statics (given : option value) :
  let obj := Def name prototype meta statics in
  well_formed obj = true →
  ∃ t,
    walk (match given with None => Args1 obj | Some n => Args2 obj n end)
      = Ok t
    ∧ (∀ k, k ∈ method_keys t
            ↔ k ∈ keys prototype ∧ starts_lower k = true)
    ∧ (∀ k, k ∈ object_keys t
            ↔ k ∈ keys statics ∧ starts_upper k = true)
    ∧ NoDup (method_keys t).
Proof.
  intros obj Hwf.
  set (nm := match given with None => def_name obj | Some n => n end).
  destruct (walk_body_total obj Hwf nm (fresh_tree nm)) as [t Ht].
  exists t. split; [by destruct given |].
  simpl in Ht.
  destruct (walk_nested_fields _ _ _ _ Ht) as (_ & _ & Hm).
  destruct (walk_methods_fields meta prototype (fresh_tree nm))
    as (_ & _ & Ho).
  split; [| split].
  - intros k. unfold method_keys at 1. rewrite Hm.
    fold (method_keys (fold_left (walk_method meta) prototype (fresh_tree nm))).
    rewrite walk_methods_keys. unfold method_keys, keys; simpl. set_solver.
  - intros k. rewrite (walk_nested_keys _ _ _ _ k Ht).
    unfold object_keys at 1. rewrite Ho. unfold keys; simpl. set_solver.
  - unfold method_keys. rewrite Hm. apply walk_methods_NoDup.
    unfold method_keys, keys; simpl. constructor.
Qed.

Lemma build_keys_exact_witness :
  ∃ t, walk (Args1 Outer) = Ok t
       ∧ (∀ k, k ∈ method_keys t
               ↔ k ∈ ["list"; "_opts"] ∧ starts_lower k = true)
       ∧ (∀ k, k ∈ object_keys t
               ↔ k ∈ ["Inner"; "version"] ∧ starts_upper k = true)
       ∧ NoDup (method_keys t).
Proof.
  exact (build_keys_exact (VStr "Outer")
           [("list", VFun (FExtern 0)); ("_opts", VNum 0)] None
           [("Inner", Inner); ("version", Plain (VStr "1.0"))] None eq_refl).
Defined.

Lemma walk_body_ill_formed obj :
  well_formed obj = false → ∀ name t, walk_body obj name t = Raise type_error.
Proof.
  induction obj as [dname prototype meta statics IH | v]
    using definition_induction; simpl; [| done].
  intros Hwf name t.
  generalize (fold_left (walk_method meta) prototype t). clear t.
  induction IH as [| [key v] rest Hv _ IHrest]; intros t; simpl in *;
    [done |].
  destruct (starts_upper key); simpl in Hwf.
  - destruct (well_formed v) eqn:Hwfv; simpl in Hwf.
    + destruct (walk_body_total v Hwfv (VStr key) (fresh_node key v))
        as [child ->].
      by apply IHrest.
    + by rewrite Hv.
  - by apply IHrest.
Qed.

Lemma walk_body_name obj name t t' :
  walk_body obj name t = Ok t' → t_name t' = t_name t.
Proof.
  destruct obj as [dn prototype meta statics | v]; [| done]. simpl.
  intros Hw. destruct (walk_nested_fields _ _ _ _ Hw) as (-> & _).
  apply walk_methods_fields.
Qed.

(** C7. [walk] accepts one, two or three arguments: with any other
    number it throws [Error('invalid arguments')].  At an accepted arity
    and on a well-formed definition it returns the tree, named after the
    definition (one argument), by the given name (two arguments) or as
    the given tree was (three); on a definition that is not well formed
    it fails on a [TypeError] of the runtime, not on the arity. *)
Theorem build_arity (a : walk_args) :
  ((1 ≤ arity a ≤ 3)%nat →
     (well_formed (args_obj a) = true →
      ∃ t, walk a = Ok t
           ∧ t_name t = match a with
                        | Args1 obj => def_name obj
                        | Args2 _ name => name
                        | Args3 _ _ t0 => t_name t0
                        | _ => VUndef
                        end)
     ∧ (well_formed (args_obj a) = false → walk a = Raise type_error))
  ∧ (¬ (1 ≤ arity a ≤ 3)%nat → walk a = Raise invalid_arguments).
Proof.
  assert (Hbody : ∀ obj name t,
             well_formed obj = true →
             ∃ t', walk_body obj name t = Ok t' ∧ t_name t' = t_name t).
  { intros obj name t Hwf.
    destruct (walk_body_total obj Hwf name t) as [t' Ht'].
    exists t'. split; [done |]. by eapply walk_body_name. }
  split.
  - intros Har. split; intros Hwf.
    + destruct a; simpl in *; try lia; by apply Hbody.
    + destruct a; simpl in *; try lia; by apply walk_body_ill_formed.
  - intros Har. destruct a; simpl in *; try done; exfalso; apply Har; lia.
Qed.

Lemma build_arity_witness :
  (∃ t, walk (Args1 Outer) = Ok t ∧ t_name t = VStr "Outer")
  ∧ (∃ t, walk (Args2 Outer (VStr "api")) = Ok t ∧ t_name t = VStr "api")
  ∧ walk (Args1 Versioned) = Raise type_error
  ∧ walk Args0 = Raise invalid_arguments
  ∧ walk (ArgsMore Outer (VStr "api") (fresh_tree VNull) VUndef [])
    = Raise invalid_arguments.
Proof.
  split; [| split; [| split; [| split]]].
  - apply (build_arity (Args1 Outer)); [simpl; lia | reflexivity].
  - apply (build_arity (Args2 Outer (VStr "api"))); [simpl; lia | reflexivity].
  - apply (build_arity (Args1 Versioned)); [simpl; lia | reflexivity].
  - apply (build_arity Args0). simpl. lia.
  - apply (build_arity (ArgsMore Outer (VStr "api") (fresh_tree VNull) VUndef [])).
    simpl. lia.
Defined.

(** * Properties of [promisify] *)

(** C8. Without a client (absent or falsy first argument) [promisify]
    throws [Error('client required')] to its caller and patches
    nothing. *)
Theorem promisify_requires_client client wrapCallback s :
  truthy client = false →
  promisify client wrapCallback s = (Throw client_required, s).
Proof. intros Hfalsy. unfold promisify. by rewrite Hfalsy. Qed.

Lemma promisify_requires_client_witness :
  promisify VUndef VUndef sample_state = (Throw client_required, sample_state).
Proof. apply (promisify_requires_client VUndef VUndef sample_state). reflexivity. Defined.

(** C10. When no key of the prototype starts with a lowercase letter,
    the tree has no [methods] field at all (not an empty map), and
    [promisify] throws a [TypeError] at [Object.keys(tree.methods)]
    with nothing patched. *)
Theorem no_operation_type_error s client wrapCallback
    name prototype meta statics :
  truthy client = true →
  constructor_of s client = Def name prototype meta statics →
  (∀ k, k ∈ keys prototype → starts_lower k = false) →
  (∀ t, walk (Args1 (Def name prototype meta statics)) = Ok t →
        t_methods t = None
        ∧ patch (adapter_of wrapCallback) t client s = (Throw type_error, s))
  ∧ promisify client wrapCallback s = (Throw type_error, s).
Proof.
  intros Htruthy Hctor Hnone.
  assert (Hm : ∀ t, walk (Args1 (Def name prototype meta statics)) = Ok t →
                    t_methods t = None).
  { intros t Ht. simpl in Ht.
    destruct (walk_nested_fields _ _ _ _ Ht) as (_ & _ & ->).
    by apply walk_methods_absent. }
  split.
  - intros t Ht. split; [by apply Hm |].
    specialize (Hm t Ht). destruct t as [tn tv tm to]. simpl in Hm.
    by subst tm.
  - unfold promisify. rewrite Htruthy. simpl negb. cbv iota.
    rewrite Hctor.
    destruct (walk _) as [t | e] eqn:Hw.
    + specialize (Hm t eq_refl). destruct t as [tn tv tm to]. simpl in Hm.
      by subst tm.
    + unfold walk in Hw. by rewrite (walk_body_raise _ _ _ _ Hw).
Qed.

Lemma no_operation_type_error_witness :
  (∀ t, walk (Args1 Bare) = Ok t →
        t_methods t = None
        ∧ patch (VFun FFromCallback) t (VRef 0) sample_bare
          = (Throw type_error, sample_bare))
  ∧ promisify (VRef 0) VUndef sample_bare = (Throw type_error, sample_bare).
Proof.
  apply (no_operation_type_error sample_bare (VRef 0) VUndef (VStr "Bare")
           [("_request", VFun (FExtern 3))] None []).
  - reflexivity.
  - reflexivity.
  - intros k Hin. apply list_elem_of_singleton in Hin. by subst k.
Defined.

Section Traversal.
Variable wc : value.

Lemma patch_objects_app rec c pre rest s :
  patch_objects rec c (pre ++ rest) s
  = match patch_objects rec c pre s with
    | (Return _, s') => patch_objects rec c rest s'
    | (Throw e, s') => (Throw e, s')
    end.
Proof.
  revert s. induction pre as [| [key sub] pre IH]; intros s; simpl; [done |].
  destruct (get_prop s c (toLowerCase key)) as [c' | e]; [| done].
  destruct (rec sub c' s) as [[v | e] s']; [apply IH | done].
Qed.

(** What a nested call of [patch] throws leaves [patch]. *)
Lemma reaches_throw t c s node cn sn :
  reaches wc t c s node cn sn →
  ∀ e s', patch wc node cn sn = (Throw e, s') →
          patch wc t c s = (Throw e, s').
Proof.
  induction 1 as [| tname tvalue ms pre key sub post c s s1 s2 c' node cn sn
                    Hms Hpre Hget _ IH]; intros e s' Hthrow; [done |].
  simpl. rewrite Hms, patch_objects_app, Hpre. simpl.
  rewrite Hget. by rewrite (IH _ _ Hthrow).
Qed.

Lemma built_reaches t c s node cn sn :
  reaches wc t c s node cn sn → built t = true → built node = true.
Proof.
  induction 1 as [| tname tvalue ms pre key sub post c s s1 s2 c' node cn sn
                    _ _ _ _ IH]; [done |].
  intros Hb. apply IH. simpl in Hb.
  apply andb_true_iff in Hb as [_ Hb].
  rewrite forallb_app in Hb. apply andb_true_iff in Hb as [_ Hb].
  simpl in Hb. by apply andb_true_iff in Hb as [Hb _].
Qed.

(** [patch] on [undefined] stops at its first property access. *)
Lemma patch_undefined t s :
  built t = true → patch wc t VUndef s = (Throw type_error, s).
Proof.
  destruct t as [tn tv [[| [key m] ms] |] objs]; simpl; done.
Qed.
End Traversal.

Lemma built_assoc_set key (child : tree) entries :
  built child = true →
  forallb (λ e, built (snd e)) entries = true →
  forallb (λ e, built (snd e)) (assoc_set key child entries) = true.
Proof.
  intros Hc. induction entries as [| [k0 t0] rest IH]; simpl.
  - by rewrite Hc.
  - intros [H0 Hrest]%andb_true_iff.
    destruct (String.eqb key k0); simpl.
    + by rewrite Hc, Hrest.
    + by rewrite H0, IH.
Qed.

Lemma built_walk_methods meta prototype t :
  built t = true → built (fold_left (walk_method meta) prototype t) = true.
Proof.
  revert t. induction prototype as [| [key v] rest IH]; intros t Hb; simpl;
    [done |].
  apply IH. destruct (starts_lower key); [| done].
  destruct t as [tn tv tm to]. simpl in *.
  apply andb_true_iff in Hb as [_ Hb]. rewrite Hb.
  by destruct (assoc_set key _ _) eqn:Heq;
    [apply assoc_set_nonempty in Heq |].
Qed.

Lemma built_walk_body obj :
  ∀ name t t', walk_body obj name t = Ok t' →
               built t = true → built t' = true.
Proof.
  induction obj as [dname prototype meta statics IH | v]
    using definition_induction; intros name t t'; simpl; [| done].
  intros Hw Hb. apply (built_walk_methods meta prototype) in Hb.
  revert Hw Hb. generalize (fold_left (walk_method meta) prototype t).
  clear t. induction IH as [| [key v] rest Hv _ IHrest]; intros t; simpl.
  - by intros [= ->].
  - destruct (starts_upper key); [| apply IHrest].
    destruct (walk_body v (VStr key) (fresh_node key v)) as [child | e] eqn:Hc;
      [| done].
    intros Hw Hb. apply (IHrest _ Hw).
    destruct t as [tn tv tm to]. simpl in *.
    apply andb_true_iff in Hb as [Hm Ho]. rewrite Hm. simpl.
    apply built_assoc_set; [by eapply Hv | by destruct to].
Qed.

Lemma built_walk a t :
  (arity a ≤ 2)%nat → walk a = Ok t → built t = true.
Proof.
  destruct a; simpl; intros Har Hw; try done; try lia;
    by eapply built_walk_body.
Qed.

(** C1 (as the code has it). When the traversal of [promisify] comes
    to a nested capability whose lower-cased accessor is [undefined] on
    the live object, the subtree is not skipped: [patch] is called on
    [undefined] and [promisify] throws a [TypeError] there, in the state
    the traversal has reached. *)
Theorem absent_accessor_raises client wrapCallback s t node sn :
  truthy client = true →
  walk (Args1 (constructor_of s client)) = Ok t →
  reaches (adapter_of wrapCallback) t client s node VUndef sn →
  promisify client wrapCallback s = (Throw type_error, sn).
Proof.
  intros Htruthy Hwalk Hreach. unfold promisify.
  rewrite Htruthy. simpl negb. cbv iota. rewrite Hwalk.
  fold (adapter_of wrapCallback).
  eapply reaches_throw; [exact Hreach |].
  apply patch_undefined. eapply built_reaches; [exact Hreach |].
  eapply built_walk; [| exact Hwalk]. simpl. lia.
Qed.

(** When [Outer] has no [inner], [promisify] wraps [list] and then
    throws. *)
Lemma absent_accessor_raises_witness :
  ∃ sn,
    object_get (heap_get sn 0) "list"
    = VFun (FWrapper (VRef 0) (VFun (FExtern 0)) (VFun FFromCallback))
    ∧ promisify (VRef 0) VUndef sample_missing = (Throw type_error, sn).
Proof.
  exists (snd (patch_methods (VFun FFromCallback) (VRef 0)
                 [("list", Method "list" (VFun (FExtern 0)) (VStr "callback"))]
                 sample_missing)).
  split; [reflexivity |].
  apply (absent_accessor_raises (VRef 0) VUndef sample_missing
           outer_tree inner_node); [reflexivity | reflexivity |].
  eapply (reaches_nested _ (VStr "Outer") None _ [] "Inner" inner_node []);
    [reflexivity | reflexivity | reflexivity | apply reaches_here].
Defined.

(** C1 (as stated) fails: [Outer] declares [Inner], the instance has no
    [inner], and [promisify] throws instead of skipping the subtree. *)
Lemma silent_skip_counterexample :
  walk (Args1 (constructor_of sample_missing (VRef 0))) = Ok outer_tree
  ∧ "Inner" ∈ object_keys outer_tree
  ∧ get_prop sample_missing (VRef 0) (toLowerCase "Inner") = Ok VUndef
  ∧ fst (promisify (VRef 0) VUndef sample_missing) = Throw type_error.
Proof.
  split; [reflexivity |]. split; [apply list_elem_of_singleton; reflexivity |].
  split; reflexivity.
Qed.

(** * The wrappers that [patch] installs *)

Lemma tree_induction (P : tree → Prop) :
  (∀ tn tv ms objs,
      Forall (λ e, P (snd e)) (default [] objs) → P (Tree tn tv ms objs)) →
  ∀ t, P t.
Proof.
  intros HTree. fix IH 1. intros [tn tv ms objs]. apply HTree.
  destruct objs as [entries |]; simpl; [| constructor].
  induction entries as [| [k c] rest IHrest]; constructor;
    [apply IH | apply IHrest].
Qed.

Lemma object_get_set o key x key' :
  object_get (object_set o key x) key'
  = if String.eqb key' key then x else object_get o key'.
Proof.
  unfold object_get, object_set; simpl.
  destruct (String.eqb_spec key' key) as [-> | Hne].
  - by rewrite assoc_assoc_set_eq.
  - by rewrite assoc_assoc_set_ne.
Qed.

Lemma heap_get_set_prop s l key x s1 l' :
  set_prop s (VRef l) key x = Ok s1 →
  heap_get s1 l'
  = if decide (l = l') then object_set (heap_get s l) key x
    else heap_get s l'.
Proof.
  intros [= <-]. unfold heap_get; simpl. case_decide as Hl.
  - subst l'. by rewrite lookup_insert_eq.
  - by rewrite lookup_insert_ne.
Qed.

Lemma set_prop_ref v key x s s1 :
  set_prop s v key x = Ok s1 → ∃ l, v = VRef l.
Proof. destruct v; simpl; try done. eauto. Qed.

Section Wrapping.
Variable wc : value.

Lemma wrapped_trans c a b v d1 d2 :
  wrapped wc c a d1 b → wrapped wc c b d2 v → wrapped wc c a (d2 + d1) v.
Proof.
  intros Hab Hbv. induction Hbv as [| d v _ IH]; simpl; [done |].
  by constructor.
Qed.

Lemma patched_refl s : patched wc s s.
Proof. intros l key. exists 0. constructor. Qed.

Lemma patched_trans s1 s2 s3 :
  patched wc s1 s2 → patched wc s2 s3 → patched wc s1 s3.
Proof.
  intros H12 H23 l key.
  destruct (H12 l key) as [d1 Hd1], (H23 l key) as [d2 Hd2].
  exists (d2 + d1). by eapply wrapped_trans.
Qed.

Lemma patched_set_prop s l key s1 :
  set_prop s (VRef l) key
    (VFun (FWrapper (VRef l) (object_get (heap_get s l) key) wc)) = Ok s1 →
  patched wc s s1.
Proof.
  intros Hset. intros l' key'. rewrite (heap_get_set_prop _ _ _ _ _ l' Hset).
  case_decide as Hl; [subst l' | exists 0; constructor].
  rewrite object_get_set.
  destruct (String.eqb_spec key' key) as [-> | Hne].
  - exists 1. repeat constructor.
  - exists 0. constructor.
Qed.

Lemma patch_methods_patched c ms s o s' :
  patch_methods wc c ms s = (o, s') → patched wc s s'.
Proof.
  revert s. induction ms as [| [key m] rest IH]; intros s; simpl.
  - intros [= _ <-]. apply patched_refl.
  - destruct (get_prop s c (m_name m)) as [fn |] eqn:Hget.
    2: { intros [= _ <-]. apply patched_refl. }
    destruct (is_callback (m_type m)); [| apply IH].
    destruct (set_prop s c (m_name m) _) as [s1 |] eqn:Hset.
    2: { intros [= _ <-]. apply patched_refl. }
    intros Hrest. eapply patched_trans; [| by eapply IH].
    destruct (set_prop_ref _ _ _ _ _ Hset) as [l ->].
    simpl in Hget. injection Hget as <-.
    eapply patched_set_prop. exact Hset.
Qed.

Lemma patch_patched t :
  ∀ c s o s', patch wc t c s = (o, s') → patched wc s s'.
Proof.
  induction t as [tn tv ms objs IH] using tree_induction.
  intros c s o s'. simpl.
  destruct ms as [ms |]; [| intros [= _ <-]; apply patched_refl].
  destruct (patch_methods wc c ms s) as [[v | e] s1] eqn:Hms.
  2: { intros [= _ <-]. by eapply patch_methods_patched. }
  apply patch_methods_patched in Hms.
  destruct objs as [entries |]; simpl in IH.
  2: { by intros [= _ <-]. }
  intros Hobjs. eapply patched_trans; [exact Hms |].
  clear Hms. revert s1 Hobjs.
  induction IH as [| [key sub] rest Hsub _ IHrest]; intros s1; simpl.
  - intros [= _ <-]. apply patched_refl.
  - destruct (get_prop s1 c (toLowerCase key)) as [c' |].
    2: { intros [= _ <-]. apply patched_refl. }
    destruct (patch wc sub c' s1) as [[v' | e] s2] eqn:Hsubp.
    + intros Hrest. eapply patched_trans; [by eapply Hsub |].
      by apply IHrest.
    + intros [= _ <-]. by eapply Hsub.
Qed.

(** On a live object the first loop of [patch] completes, and every
    callback-mode method of the list is wrapped at least once. *)
Lemma patch_methods_wraps l ms s o s' :
  patch_methods wc (VRef l) ms s = (o, s') →
  o = Return VUndef
  ∧ ∀ key m, (key, m) ∈ ms → is_callback (m_type m) = true →
      ∃ d, wrapped wc (VRef l) (object_get (heap_get s l) (m_name m))
                   (S d) (object_get (heap_get s' l) (m_name m)).
Proof.
  revert s. induction ms as [| [key0 m0] rest IH]; intros s; simpl.
  - intros [= <- <-]. split; [done |]. intros key m Hin. inversion Hin.
  - destruct (is_callback (m_type m0)) eqn:Hcb.
    + intros Hrest.
      set (s1 := State (<[l := object_set (heap_get s l) (m_name m0)
                   (VFun (FWrapper (VRef l)
                      (object_get (heap_get s l) (m_name m0)) wc))]> (heap s))
                   (arrays s) (promises s) (log s)) in *.
      assert (Hs1 : patched wc s s1) by (by eapply (patched_set_prop s l)).
      destruct (IH _ Hrest) as [-> Hall]. split; [done |].
      pose proof (patch_methods_patched _ _ _ _ _ Hrest) as Hs'.
      intros key m [[= -> ->] | Hin]%elem_of_cons Hm.
      * destruct (Hs' l (m_name m0)) as [d Hd]. exists d.
        replace (S d) with (d + 1) by lia.
        eapply wrapped_trans; [| exact Hd].
        unfold s1, heap_get at 2; simpl. rewrite lookup_insert_eq; simpl.
        rewrite object_get_set, String.eqb_refl. repeat constructor.
      * destruct (Hall key m Hin Hm) as [d Hd].
        destruct (Hs1 l (m_name m)) as [d1 Hd1]. exists (d + d1).
        replace (S (d + d1)) with (S d + d1) by lia.
        by eapply wrapped_trans.
    + intros Hrest. destruct (IH _ Hrest) as [-> Hall]. split; [done |].
      intros key m [[= -> ->] | Hin]%elem_of_cons Hm; [congruence |].
      by eapply Hall.
Qed.

(** After [patch] on a live object, whether it completed or not. *)
Lemma patch_wraps tn tv ms objs l s o s' :
  patch wc (Tree tn tv (Some ms) objs) (VRef l) s = (o, s') →
  ∀ key m, (key, m) ∈ ms → is_callback (m_type m) = true →
    ∃ d, wrapped wc (VRef l) (object_get (heap_get s l) (m_name m))
                 (S d) (object_get (heap_get s' l) (m_name m)).
Proof.
  simpl. destruct (patch_methods wc (VRef l) ms s) as [o1 s1] eqn:Hms.
  destruct (patch_methods_wraps _ _ _ _ _ Hms) as [-> Hall].
  intros Hobjs key m Hin Hm. destruct (Hall key m Hin Hm) as [d1 Hd1].
  assert (Hs' : patched wc s1 s').
  { destruct objs as [entries |]; [| by injection Hobjs as _ <-; apply patched_refl].
    change (patch_objects (patch wc) (VRef l) entries s1)
      with (match patch_methods wc (VRef l) [] s1 with
            | (Return _, s2) => patch_objects (patch wc) (VRef l) entries s2
            | (Throw e, s2) => (Throw e, s2)
            end) in Hobjs.
    by apply (patch_patched (Tree tn tv (Some []) (Some entries))
                (VRef l) s1 o s'). }
  destruct (Hs' l (m_name m)) as [d2 Hd2]. exists (d2 + d1).
  replace (S (d2 + d1)) with (d2 + S d1) by lia.
  by eapply wrapped_trans.
Qed.
End Wrapping.

Section Installed.
Variable wc : value.

Lemma patch_objects_patched c entries s o s' :
  patch_objects (patch wc) c entries s = (o, s') → patched wc s s'.
Proof.
  revert s. induction entries as [| [key sub] rest IH]; intros s; simpl.
  - intros [= _ <-]. apply patched_refl.
  - destruct (get_prop s c (toLowerCase key)) as [c' |].
    2: { intros [= _ <-]. apply patched_refl. }
    destruct (patch wc sub c' s) as [[v | e] s1] eqn:Hsub.
    + intros Hrest. eapply patched_trans; [by eapply patch_patched |].
      by apply IH.
    + intros [= _ <-]. by eapply patch_patched.
Qed.

(** A node that the traversal reaches is patched in a state that
    extends the initial one, and the final state extends what its
    patching leaves. *)
Lemma reaches_patched t c s node cn sn :
  reaches wc t c s node cn sn →
  ∀ o s', patch wc t c s = (o, s') →
    patched wc s sn
    ∧ ∃ o' s'', patch wc node cn sn = (o', s'') ∧ patched wc s'' s'.
Proof.
  induction 1 as [| tname tvalue ms pre key sub post c s s1 s2 c' node cn sn
                    Hms Hpre Hget _ IH]; intros o s' Hpatch.
  - split; [apply patched_refl |]. exists o, s'. split; [done |].
    apply patched_refl.
  - simpl in Hpatch. rewrite Hms, patch_objects_app, Hpre in Hpatch.
    simpl in Hpatch. rewrite Hget in Hpatch.
    destruct (patch wc sub c' s2) as [osub s3] eqn:Hsub.
    destruct (IH _ _ eq_refl) as (Hsn & o' & s'' & Hnode & Hs3).
    split.
    + eapply patched_trans; [by eapply patch_methods_patched |].
      eapply patched_trans; [by eapply patch_objects_patched | done].
    + exists o', s''. split; [done |].
      eapply patched_trans; [exact Hs3 |].
      destruct osub as [v | e]; [by eapply patch_objects_patched |].
      injection Hpatch as _ <-. apply patched_refl.
Qed.
End Installed.

(** What [promisify] installs: at every node that its traversal reaches
    with a live object, each callback-mode method of the node is the
    original property under at least one layer of the wrapper. *)
Lemma promisify_installs client wrapCallback s t o s' node l sn ms key m :
  truthy client = true →
  walk (Args1 (constructor_of s client)) = Ok t →
  promisify client wrapCallback s = (o, s') →
  reaches (adapter_of wrapCallback) t client s node (VRef l) sn →
  t_methods node = Some ms →
  (key, m) ∈ ms →
  is_callback (m_type m) = true →
  ∃ d, wrapped (adapter_of wrapCallback) (VRef l)
               (object_get (heap_get s l) (m_name m)) (S d)
               (object_get (heap_get s' l) (m_name m)).
Proof.
  intros Htruthy Hwalk Hprom Hreach Hms Hin Hcb.
  unfold promisify in Hprom. rewrite Htruthy in Hprom.
  simpl negb in Hprom. cbv iota in Hprom. rewrite Hwalk in Hprom.
  fold (adapter_of wrapCallback) in Hprom.
  destruct (reaches_patched _ _ _ _ _ _ _ Hreach _ _ Hprom)
    as (Hsn & o' & s'' & Hnode & Hs').
  destruct node as [tn tv tm objs]. simpl in Hms. subst tm.
  destruct (patch_wraps _ _ _ _ _ _ _ _ _ Hnode key m Hin Hcb) as [d1 Hd1].
  destruct (Hsn l (m_name m)) as [d0 Hd0].
  destruct (Hs' l (m_name m)) as [d2 Hd2].
  exists (d2 + (d1 + d0)).
  replace (S (d2 + (d1 + d0))) with (d2 + (S d1 + d0)) by lia.
  eapply wrapped_trans; [| exact Hd2]. by eapply wrapped_trans.
Qed.

Lemma wrapped_is_wrapper wc c orig d v :
  wrapped wc c orig (S d) v → ∃ inner, v = VFun (FWrapper c inner wc).
Proof. inversion 1; eauto. Qed.

(** * The dual-mode wrapper *)

Section Calls.
Variable extern : nat → value → list value → body.

(** With a function as last argument the wrapper is the original
    applied to the live object and the same arguments. *)
Lemma wrapper_passthrough c fn wc this args s0 r :
  is_function (last_arg args) = true →
  evals extern (VFun (FWrapper c fn wc)) this args s0 r
  ↔ evals extern fn c args s0 r.
Proof.
  intros Hlast. split; intros [n Hn].
  - destruct n as [| n]; [done |]. simpl in Hn. rewrite Hlast in Hn.
    by exists n.
  - exists (S n). simpl. by rewrite Hlast.
Qed.

Lemma wrapped_passthrough wc c orig d v :
  wrapped wc c orig d v →
  ∀ args s0 r,
    is_function (last_arg args) = true →
    evals extern v c args s0 r ↔ evals extern orig c args s0 r.
Proof.
  induction 1 as [| d v _ IH]; intros args s0 r Hlast; [done |].
  rewrite wrapper_passthrough by done. by apply IH.
Qed.

Lemma installed_passthrough wc c orig d v this args s0 r :
  wrapped wc c orig (S d) v →
  is_function (last_arg args) = true →
  evals extern v this args s0 r ↔ evals extern orig c args s0 r.
Proof.
  inversion 1 as [| d' v' Hv']; subst. intros Hlast.
  rewrite wrapper_passthrough by done. by eapply wrapped_passthrough.
Qed.
End Calls.

(** C4. After [promisify], a callback-mode operation of a patched live
    object is a dual-mode wrapper, and a call of it whose last argument
    is a function is the call of the original operation on that object
    with the same arguments: same completion, same final state, with
    the calls of host functions (the caller's callback among them)
    logged alike. *)
Theorem callback_path_passthrough extern client wrapCallback s t o s'
    node l sn ms key m :
  truthy client = true →
  walk (Args1 (constructor_of s client)) = Ok t →
  promisify client wrapCallback s = (o, s') →
  reaches (adapter_of wrapCallback) t client s node (VRef l) sn →
  t_methods node = Some ms →
  (key, m) ∈ ms →
  is_callback (m_type m) = true →
  let original := object_get (heap_get s l) (m_name m) in
  let dual := object_get (heap_get s' l) (m_name m) in
  (∃ inner, dual = VFun (FWrapper (VRef l) inner (adapter_of wrapCallback)))
  ∧ ∀ this args s0 r,
      is_function (last_arg args) = true →
      evals extern dual this args s0 r
      ↔ evals extern original (VRef l) args s0 r.
Proof.
  intros Htruthy Hwalk Hprom Hreach Hms Hin Hcb original dual.
  destruct (promisify_installs _ _ _ _ _ _ _ _ _ _ _ _
              Htruthy Hwalk Hprom Hreach Hms Hin Hcb) as [d Hd].
  split; [by eapply wrapped_is_wrapper |].
  intros this args s0 r Hlast. by eapply installed_passthrough.
Qed.

(** C2 (as the code has it). On the callback path the wrapper has no
    handler of its own: whatever the original operation does is what
    the wrapper does, with the same completion and the same final
    state.  When the original throws synchronously, the same exception
    leaves the wrapper and nothing is passed to the callback on its
    behalf; when the original passes an error to the callback, the
    callback receives it as before. *)
Theorem callback_path_throw_propagates extern client wrapCallback s t o s'
    node l sn ms key m this args s0 :
  truthy client = true →
  walk (Args1 (constructor_of s client)) = Ok t →
  promisify client wrapCallback s = (o, s') →
  reaches (adapter_of wrapCallback) t client s node (VRef l) sn →
  t_methods node = Some ms →
  (key, m) ∈ ms →
  is_callback (m_type m) = true →
  is_function (last_arg args) = true →
  let original := object_get (heap_get s l) (m_name m) in
  let dual := object_get (heap_get s' l) (m_name m) in
  (∀ r, evals extern dual this args s0 r
        ↔ evals extern original (VRef l) args s0 r)
  ∧ (∀ e s1, evals extern original (VRef l) args s0 (Throw e, s1) →
             evals extern dual this args s0 (Throw e, s1))
  ∧ (∀ e s1, evals extern dual this args s0 (Throw e, s1) →
             evals extern original (VRef l) args s0 (Throw e, s1)).
Proof.
  intros Htruthy Hwalk Hprom Hreach Hms Hin Hcb Hlast original dual.
  destruct (promisify_installs _ _ _ _ _ _ _ _ _ _ _ _
              Htruthy Hwalk Hprom Hreach Hms Hin Hcb) as [d Hd].
  assert (Hiff : ∀ r, evals extern dual this args s0 r
                      ↔ evals extern original (VRef l) args s0 r)
    by (intros r; by eapply installed_passthrough).
  split; [done |]. split; intros e s1; apply Hiff.
Qed.

(** * Promises *)

Lemma keeps_settled_refl s : keeps_settled s s.
Proof. by intros p st. Qed.

Lemma keeps_settled_trans s1 s2 s3 :
  keeps_settled s1 s2 → keeps_settled s2 s3 → keeps_settled s1 s3.
Proof. intros H12 H23 p st Hp Hst. apply H23; [by apply H12 | done]. Qed.

Lemma keeps_settled_same s s' :
  promises s' = promises s → keeps_settled s s'.
Proof. intros Heq p st. by rewrite Heq. Qed.

Lemma keeps_settled_settle p st s : keeps_settled s (settle p st s).
Proof.
  unfold settle. destruct (promises s !! p) as [[] |] eqn:Hp;
    try apply keeps_settled_refl.
  intros q st' Hq Hst'. simpl.
  destruct (decide (p = q)) as [-> | Hne]; [congruence |].
  by rewrite list_lookup_insert_ne.
Qed.

Lemma keeps_settled_new_promise s : keeps_settled s (snd (new_promise s)).
Proof. intros p st Hp _. simpl. by apply lookup_app_l_Some. Qed.

Lemma settle_pending p st s :
  promise_state s p = Some Pending →
  promise_state (settle p st s) p = Some st.
Proof.
  unfold promise_state, settle. intros Hp. rewrite Hp. simpl.
  apply list_lookup_insert_eq. by eapply lookup_lt_Some.
Qed.

Lemma settle_settled p st st' s :
  promise_state s p = Some st → st ≠ Pending → settle p st' s = s.
Proof.
  unfold promise_state, settle. intros -> Hst. by destruct st.
Qed.

Lemma settlement_not_pending cbargs : settlement cbargs ≠ Pending.
Proof. unfold settlement. by destruct (truthy (arg 0 cbargs)). Qed.

Section Settling.
Variable extern : nat → value → list value → body.

Lemma run_body_keeps callf :
  (∀ f this args s r s',
      callf f this args s = Some (r, s') → keeps_settled s s') →
  ∀ b s r s', run_body callf b s = Some (r, s') → keeps_settled s s'.
Proof.
  intros Hcallf. induction b as [o | f this args k IH | v key k IH
                                | v key x k IH]; intros s r s'; simpl.
  - intros [= _ <-]. apply keeps_settled_refl.
  - destruct (callf f this args s) as [[o s1] |] eqn:Hcall; [| done].
    intros Hk. eapply keeps_settled_trans; [by eapply Hcallf |].
    by eapply IH.
  - destruct (get_prop s v key); apply IH.
  - destruct (set_prop s v key x) as [s1 |] eqn:Hset; [| apply IH].
    intros Hk. eapply keeps_settled_trans; [| by eapply IH].
    apply keeps_settled_same. destruct v; try done.
    by injection Hset as <-.
Qed.

(** No call settles a promise a second time. *)
Lemma call_keeps n :
  ∀ f this args s r s',
    call extern n f this args s = Some (r, s') → keeps_settled s s'.
Proof.
  induction n as [| n IH]; intros f this args s r s'; simpl; [done |].
  destruct f as [| | | | | | | | [id | c fn wc | c fn a | | p]];
    try (intros [= _ <-]; apply keeps_settled_refl).
  - intros Hrun. eapply keeps_settled_trans;
      [| by eapply (run_body_keeps _ IH)].
    by apply keeps_settled_same.
  - destruct (is_function (last_arg args)); [apply IH |].
    intros Hcall. eapply keeps_settled_trans; [| by eapply IH].
    by apply keeps_settled_same.
  - intros Hcall. eapply keeps_settled_trans; [| by eapply IH].
    by apply keeps_settled_same.
  - destruct (call extern n (arg 0 args) VUndef _ _)
      as [[[v | e] s2] |] eqn:Hcall; [| | done].
    + intros [= _ <-]. eapply keeps_settled_trans; [| by eapply IH].
      apply keeps_settled_new_promise.
    + intros [= _ <-].
      eapply keeps_settled_trans; [apply keeps_settled_new_promise |].
      eapply keeps_settled_trans; [by eapply IH |].
      apply keeps_settled_settle.
  - destruct (truthy (arg 0 args)); intros [= _ <-];
      apply keeps_settled_settle.
Qed.

(** The callback of [fromCallback], called on a pending promise. *)
Lemma settle_callback n p this cbargs s :
  promise_state s p = Some Pending →
  ∃ s', call extern (S n) (VFun (FSettle p)) this cbargs s
        = Some (Return VUndef, s')
        ∧ promise_state s' p = Some (settlement cbargs).
Proof.
  intros Hp. simpl. unfold settlement.
  destruct (truthy (arg 0 cbargs)); eexists; (split; [done |]);
    by apply settle_pending.
Qed.

(** A body that calls back settles the promise of its callback. *)
Lemma calls_back_settles n p cbargs b :
  calls_back (VFun (FSettle p)) cbargs b →
  ∀ s r s',
    promise_state s p = Some Pending →
    run_body (call extern n) b s = Some (r, s') →
    promise_state s' p = Some (settlement cbargs).
Proof.
  induction 1 as [this k | v key k _ IH | v key x k _ IH];
    intros s r s' Hp; simpl.
  - destruct n as [| n]; [done |].
    destruct (settle_callback n p this cbargs s Hp)
      as (s1 & -> & Hs1).
    intros Hk. eapply run_body_keeps; [apply call_keeps | exact Hk | |].
    + exact Hs1.
    + apply settlement_not_pending.
  - destruct (get_prop s v key); by apply IH.
  - destruct (set_prop s v key x) as [s1 |] eqn:Hset; [| by apply IH].
    apply IH. destruct v; try done. by injection Hset as <-.
Qed.

(** The wrapper on the promise path, with [fromCallback] as adapter. *)
Lemma wrapper_promise_path n c fn this args s :
  is_function (last_arg args) = false →
  call extern (S (S (S n))) (VFun (FWrapper c fn (VFun FFromCallback)))
       this args s
  = match call extern n fn c
            (args ++ [VFun (FSettle (length (promises s)))])
            (promise_path_entry args s) with
    | Some (Return _, s2) =>
        Some (Return (VPromise (length (promises s))), s2)
    | Some (Throw e, s2) =>
        Some (Return (VPromise (length (promises s))),
              settle (length (promises s)) (Rejected e) s2)
    | None => None
    end.
Proof.
  intros Hlast. cbn [call]. rewrite Hlast.
  cbn [new_array new_promise arg lookup list_lookup default from_option].
  unfold array_push, array_read; simpl.
  replace (length (arrays s)) with (length (arrays s) + 0) by lia.
  rewrite alter_app_r. simpl.
  replace (length (arrays s) + 0) with (length (arrays s)) by lia.
  rewrite list_lookup_middle by done. done.
Qed.
End Settling.

Lemma last_arg_snoc args x : last_arg (args ++ [x]) = x.
Proof. unfold last_arg. by rewrite last_snoc. Qed.



(** C6. When [op] throws [e] before the callback it was given has
    settled the promise, [fromCallback(op)] does not throw: it returns
    the promise, rejected with [e]. *)
Theorem adapter_rejects_on_throw extern op this n s e s1 :
  let p := length (promises s) in
  call extern n op VUndef [VFun (FSettle p)] (snd (new_promise s))
    = Some (Throw e, s1) →
  promise_state s1 p = Some Pending →
  call extern (S n) (VFun FFromCallback) this [op] s
    = Some (Return (VPromise p), settle p (Rejected e) s1)
  ∧ promise_state (settle p (Rejected e) s1) p = Some (Rejected e).
Proof.
  intros p Hop Hpending. split.
  - simpl. unfold arg; simpl. fold p.
    change (State (heap s) (arrays s) (promises s ++ [Pending]) (log s))
      with (snd (new_promise s)).
    by rewrite Hop.
  - by apply settle_pending.
Qed.

(** [fromCallback] on the sample operation that throws [boom]. *)
Lemma adapter_rejects_on_throw_witness :
  ∃ s2,
    call host 2 (VFun FFromCallback) VUndef [VFun (FExtern 1)] sample_state
      = Some (Return (VPromise 0), s2)
    ∧ promise_state s2 0 = Some (Rejected boom).
Proof.
  eexists.
  apply (adapter_rejects_on_throw host (VFun (FExtern 1)) VUndef 1
           sample_state boom); reflexivity.
Defined.

Lemma sample_reaches_inner :
  reaches (adapter_of VUndef) outer_tree (VRef 0) sample_state
          inner_node (VRef 1) sample_midway.
Proof.
  apply (reaches_nested _ (VStr "Outer") None
           [("list", Method "list" (VFun (FExtern 0)) (VStr "callback"))]
           [] "Inner" inner_node [] (VRef 0) sample_state
           sample_midway sample_midway (VRef 1)); try reflexivity.
  apply reaches_here.
Defined.

(** [inner.get(callback)] on the patched sample: [get] throws, so does
    its wrapper, and the log shows that the callback was not called.
    [probe.fetch(callback)] on the patched probe: [fetch] passes [boom]
    to the callback, and so does its wrapper, as the log shows. *)
Lemma callback_path_throw_propagates_witness :
  evals host (object_get (heap_get sample_patched 1) "get") VUndef
        [VFun (FExtern 3)] sample_patched
        (Throw boom,
         log_call 1 (VRef 1) [VFun (FExtern 3)] sample_patched)
  ∧ evals host (object_get (heap_get sample_probe_patched 0) "fetch") VUndef
          [VFun (FExtern 3)] sample_probe_patched
          (Return VUndef,
           log_call 3 VUndef [boom; VUndef]
             (log_call 2 (VRef 0) [VFun (FExtern 3)] sample_probe_patched)).
Proof.
  split.
  - destruct (callback_path_throw_propagates host (VRef 0) VUndef
                sample_state outer_tree
                (fst (promisify (VRef 0) VUndef sample_state))
                sample_patched inner_node 1 sample_midway
                [("get", Method "get" (VFun (FExtern 1)) (VStr "callback"))]
                "get" (Method "get" (VFun (FExtern 1)) (VStr "callback"))
                VUndef [VFun (FExtern 3)] sample_patched)
      as (_ & Hthrow & _).
    + reflexivity.
    + reflexivity.
    + reflexivity.
    + apply sample_reaches_inner.
    + reflexivity.
    + apply list_elem_of_singleton. reflexivity.
    + reflexivity.
    + reflexivity.
    + apply Hthrow. exists 1. reflexivity.
  - destruct (callback_path_throw_propagates host (VRef 0) VUndef
                sample_probe probe_tree
                (fst (promisify (VRef 0) VUndef sample_probe))
                sample_probe_patched probe_tree 0 sample_probe
                [("fetch", Method "fetch" (VFun (FExtern 2)) (VStr "callback"));
                 ("self", Method "self" (VFun (FExtern 7)) (VStr "callback"))]
                "fetch" (Method "fetch" (VFun (FExtern 2)) (VStr "callback"))
                VUndef [VFun (FExtern 3)] sample_probe_patched)
      as (Hsame & _ & _).
    + reflexivity.
    + reflexivity.
    + reflexivity.
    + apply reaches_here.
    + reflexivity.
    + apply elem_of_cons. left. reflexivity.
    + reflexivity.
    + reflexivity.
    + apply Hsame. exists 2. reflexivity.
Defined.

(** C2 (as stated) fails: [inner.get] throws [boom]; called with a
    callback, its wrapper throws [boom] to the caller, and the callback
    (host function 3) is not called, as the log shows. *)
Lemma callback_throw_counterexample :
  object_get (heap_get sample_patched 1) "get"
  = VFun (FWrapper (VRef 1) (VFun (FExtern 1)) (VFun FFromCallback))
  ∧ is_function (last_arg [VFun (FExtern 3)]) = true
  ∧ call host 2 (object_get (heap_get sample_patched 1) "get") (VRef 1)
         [VFun (FExtern 3)] sample_patched
    = Some (Throw boom,
            log_call 1 (VRef 1) [VFun (FExtern 3)] sample_patched).
Proof. split; [reflexivity |]. split; reflexivity. Qed.

(** [outer.list(callback)] on the patched sample is [list] itself. *)
Lemma callback_path_passthrough_witness :
  (∃ inner,
      object_get (heap_get sample_patched 0) "list"
      = VFun (FWrapper (VRef 0) inner (VFun FFromCallback)))
  ∧ ∀ this args s0 r,
      is_function (last_arg args) = true →
      evals host (object_get (heap_get sample_patched 0) "list") this args
            s0 r
      ↔ evals host (VFun (FExtern 0)) (VRef 0) args s0 r.
Proof.
  apply (callback_path_passthrough host (VRef 0) VUndef sample_state
           outer_tree (fst (promisify (VRef 0) VUndef sample_state))
           sample_patched outer_tree 0 sample_state
           [("list", Method "list" (VFun (FExtern 0)) (VStr "callback"))]
           "list" (Method "list" (VFun (FExtern 0)) (VStr "callback"))).
  - reflexivity.
  - reflexivity.
  - reflexivity.
  - apply reaches_here.
  - reflexivity.
  - apply list_elem_of_singleton. reflexivity.
  - reflexivity.
Defined.

(** * [walk] writes to its tree only *)

Lemma preserves_refl prot h : preserves prot h h.
Proof. by split. Qed.

Lemma preserves_trans prot h1 h2 h3 :
  preserves prot h1 h2 → preserves prot h2 h3 → preserves prot h1 h3.
Proof.
  intros [Hlen12 H12] [Hlen23 H23]. split; [lia |].
  intros l Hl. by rewrite H23, H12.
Qed.

Lemma valid_preserves prot h h' :
  valid prot h → preserves prot h h' → valid prot h'.
Proof. intros Hv [Hlen _] l Hl. specialize (Hv l Hl). lia. Qed.

Lemma valid_fresh prot h : valid prot h → ¬ prot (length h).
Proof. intros Hv Hl. specialize (Hv _ Hl). lia. Qed.

Lemma preserves_alloc prot h o : valid prot h → preserves prot h (h ++ [o]).
Proof.
  intros Hv. split; [rewrite length_app; lia |].
  intros l Hl. apply lookup_app_l. by apply Hv.
Qed.

Lemma preserves_insert prot h l (o : sobject) :
  ¬ prot l → preserves prot h (<[l := o]> h).
Proof.
  intros Hl. split; [by rewrite length_insert |].
  intros l' Hl'. apply list_lookup_insert_ne. by intros ->.
Qed.

Lemma sobject_get_set o key x key' :
  sobject_get (sobject_set o key x) key'
  = if String.eqb key' key then x else sobject_get o key'.
Proof.
  unfold sobject_get, sobject_set.
  destruct (String.eqb_spec key' key) as [-> | Hne].
  - destruct (assoc key o); by rewrite assoc_assoc_set_eq.
  - destruct (assoc key o); by rewrite assoc_assoc_set_ne.
Qed.

Section Rules.
Context {A B : Type}.
Variable prot : nat → Prop.

Lemma ok_ret (a : A) h (Q : A → store → Prop) :
  (valid prot h → Q a h) → ok prot (sret a) h Q.
Proof. intros HQ Hv. simpl. split; [apply preserves_refl | by apply HQ]. Qed.

Lemma ok_throw e h (Q : A → store → Prop) : ok prot (sthrow e) h Q.
Proof. intros Hv. apply preserves_refl. Qed.

Lemma ok_bind (c : M A) (k : A → M B) h (Q : B → store → Prop) :
  ok prot c h (λ a h', ok prot (k a) h' Q) → ok prot (sbind c k) h Q.
Proof.
  intros Hc Hv. unfold sbind. specialize (Hc Hv).
  destruct (c h) as [a h' | e h' |]; [| done | done].
  destruct Hc as [Hpres Hk].
  specialize (Hk (valid_preserves _ _ _ Hv Hpres)).
  destruct (k a h') as [b h'' | e h'' |]; [| | done].
  - destruct Hk as [Hpres' HQ]. split; [| done]. by eapply preserves_trans.
  - by eapply preserves_trans.
Qed.

Lemma ok_mono (c : M A) h (Q Q' : A → store → Prop) :
  ok prot c h Q → (∀ a h', Q a h' → Q' a h') → ok prot c h Q'.
Proof.
  intros Hc HQ Hv. specialize (Hc Hv).
  destruct (c h) as [a h' | e h' |]; [| done | done].
  destruct Hc as [Hpres Ha]. split; [done | by apply HQ].
Qed.
End Rules.

Section PrimitiveRules.
Variable prot : nat → Prop.

Lemma ok_sget v key h (Q : value → store → Prop) :
  (∀ a, valid prot h → reads v key h a → Q a h) → ok prot (sget v key) h Q.
Proof.
  intros HQ Hv. unfold sget.
  destruct v as [| | b | z | str | l | p | k msg | f];
    try apply preserves_refl;
    try (split; [apply preserves_refl | by apply HQ]).
  destruct (h !! l) as [o |] eqn:Hl; [| apply preserves_refl].
  split; [apply preserves_refl |]. apply HQ; [done |]. simpl. eauto.
Qed.

Lemma ok_skeys v h (Q : list string → store → Prop) :
  (∀ ks, valid prot h → Q ks h) → ok prot (skeys v) h Q.
Proof.
  intros HQ Hv. unfold skeys.
  destruct v as [| | b | z | str | l | p | k msg | f];
    try apply preserves_refl;
    try (split; [apply preserves_refl | by apply HQ]).
  destruct (h !! l) as [o |]; [| apply preserves_refl].
  split; [apply preserves_refl | by apply HQ].
Qed.

Lemma ok_salloc o h (Q : value → store → Prop) :
  (valid prot h → Q (VRef (length h)) (h ++ [o])) → ok prot (salloc o) h Q.
Proof.
  intros HQ Hv. unfold salloc. split; [by apply preserves_alloc | by apply HQ].
Qed.

Lemma ok_sset v key x h (Q : unit → store → Prop) :
  (∀ l, v = VRef l → ¬ prot l) →
  (∀ l o, valid prot h → v = VRef l → h !! l = Some o →
          Q tt (<[l := sobject_set o key x]> h)) →
  ok prot (sset v key x) h Q.
Proof.
  intros Hout HQ Hv. unfold sset.
  destruct v as [| | b | z | str | l | p | k msg | f];
    try apply preserves_refl.
  destruct (h !! l) as [o |] eqn:Hl; [| apply preserves_refl].
  split; [apply preserves_insert; by apply Hout | by apply HQ].
Qed.

Lemma ok_for_each (Inv : store → Prop) ks f h :
  (∀ key h', Inv h' → ok prot (f key) h' (λ _ h'', Inv h'')) →
  Inv h → ok prot (for_each ks f) h (λ _ h', Inv h').
Proof.
  intros Hf. revert h. induction ks as [| key rest IH]; intros h Hinv; simpl.
  - by apply ok_ret.
  - apply ok_bind. eapply ok_mono; [by apply Hf |].
    intros [] h' Hinv'. by apply IH.
Qed.
End PrimitiveRules.

Section TreeApart.
Variable prot : nat → Prop.

Lemma tree_apart_alloc tree h o :
  valid prot h →
  sobject_get o "methods" = VUndef →
  sobject_get o "objects" = VUndef →
  tree_apart prot tree h → tree_apart prot tree (h ++ [o]).
Proof.
  intros Hv Hm Ho Ht t o' -> Hl.
  destruct (decide (t < length h)) as [Hlt | Hge].
  - rewrite lookup_app_l in Hl by done. by eapply Ht.
  - rewrite lookup_app_r in Hl by lia.
    destruct (t - length h) as [| n] eqn:Hn; [| done].
    injection Hl as <-. assert (t = length h) as -> by lia.
    split; [by apply valid_fresh |].
    rewrite Hm, Ho. by split.
Qed.

Lemma tree_apart_insert tree h m om key x :
  h !! m = Some om →
  tree_apart prot tree h →
  (tree = VRef m → (key ≠ "methods" ∧ key ≠ "objects") ∨ apart prot m x) →
  tree_apart prot tree (<[m := sobject_set om key x]> h).
Proof.
  intros Hm Ht Hcase t o -> Hl.
  destruct (decide (m = t)) as [-> | Hne].
  - rewrite list_lookup_insert_eq in Hl by (by eapply lookup_lt_Some).
    injection Hl as <-.
    destruct (Ht t om eq_refl Hm) as (Hp & Hms & Hos).
    split; [done |]. rewrite !sobject_get_set.
    destruct (Hcase eq_refl) as [[Hk1 Hk2] | Hx].
    + destruct (String.eqb_spec "methods" key); [done |].
      destruct (String.eqb_spec "objects" key); [done |]. by split.
    + destruct (String.eqb "methods" key), (String.eqb "objects" key);
        by split.
  - rewrite list_lookup_insert_ne in Hl by done. by eapply Ht.
Qed.

(** [if (!tree.field) tree.field = {}] keeps the tree apart and makes
    sure that it is an object. *)
Lemma ok_ensure_map tree field current h :
  field = "methods" ∨ field = "objects" →
  tree_apart prot tree h →
  reads tree field h current →
  ok prot
     (if negb (truthy current)
      then let* fresh := salloc (literal []) in sset tree field fresh
      else sret tt)
     h (λ _ h', tree_apart prot tree h'
                ∧ ∃ t o, tree = VRef t ∧ h' !! t = Some o).
Proof.
  intros Hfield Hapart Hreads.
  destruct (truthy current) eqn:Htruthy; simpl.
  - apply ok_ret. intros _. split; [done |].
    destruct tree; simpl in Hreads; try (subst current; discriminate Htruthy).
    destruct Hreads as (o & Ho & _). eauto.
  - apply ok_bind, ok_salloc. intros Hv. apply ok_sset.
    + intros l ->. destruct Hreads as (o & Ho & _).
      by destruct (Hapart l o eq_refl Ho).
    + intros l o _ -> Hl. destruct Hreads as (o0 & Ho0 & _).
      pose proof (lookup_lt_Some _ _ _ Ho0) as Hlt.
      split.
      * apply tree_apart_insert; [done | |].
        -- by apply tree_apart_alloc.
        -- intros _. right. intros l' [= <-]. split; [by apply valid_fresh | lia].
      * exists l, (sobject_set o field (VRef (length h))). split; [done |].
        apply list_lookup_insert_eq. by eapply lookup_lt_Some.
Qed.
End TreeApart.

Section WalkLoops.
Variable prot : nat → Prop.

Lemma ok_meta_type (e : value) h :
  ok prot
     (if truthy e
      then let* ty := sget e "type" in
           sret (if truthy ty then ty else VStr "callback")
      else sret (VStr "callback"))
     h (λ _ h', h' = h).
Proof.
  destruct (truthy e).
  - apply ok_bind, ok_sget. intros ty _ _. by apply ok_ret.
  - by apply ok_ret.
Qed.

(** One turn of the first loop. *)
Lemma swalk_method_ok obj tree key h :
  tree_apart prot tree h →
  ok prot (swalk_method obj tree key) h (λ _ h', tree_apart prot tree h').
Proof.
  intros Hapart. unfold swalk_method.
  apply ok_bind, ok_sget. intros proto _ _.
  apply ok_bind, ok_sget. intros v _ _.
  destruct (starts_lower key); simpl; [| by apply ok_ret].
  apply ok_bind, ok_sget. intros ms0 _ Hms0.
  apply ok_bind.
  eapply ok_mono; [by apply (ok_ensure_map prot tree "methods"); auto |].
  intros [] h1 (Hapart1 & t & o1 & -> & Ht1).
  destruct (Hapart1 t o1 eq_refl Ht1) as (Hprot_t & Hms & _).
  pose proof (lookup_lt_Some _ _ _ Ht1) as Ht_lt.
  apply ok_bind, ok_sget. intros ms Hv1 (o & Ho & ->).
  rewrite Ht1 in Ho. injection Ho as <-.
  apply ok_bind, ok_salloc. intros _.
  set (d := VRef (length h1)).
  match goal with |- ok _ _ (h1 ++ [?o]) _ => set (lit := o) end.
  assert (Hlit : sobject_get lit "methods" = VUndef
                 ∧ sobject_get lit "objects" = VUndef) by done.
  destruct Hlit as [Hlit_m Hlit_o]. clearbody lit.
  apply ok_bind, ok_sset; [intros l Hl; by destruct (Hms l Hl) |].
  intros m om Hv2 Hm Hom. destruct (Hms m Hm) as [Hprot_m Hne].
  match goal with |- ok _ _ ?h _ => set (h3 := h) end.
  assert (Hapart3 : tree_apart prot (VRef t) h3).
  { apply tree_apart_insert; [done | | by intros [= ->]].
    by apply tree_apart_alloc. }
  assert (Ht3 : h3 !! t = Some o1).
  { unfold h3. rewrite list_lookup_insert_ne by done.
    by apply lookup_app_l_Some. }
  assert (Hm3 : h3 !! m = Some (sobject_set om key d)).
  { unfold h3. apply list_lookup_insert_eq. by eapply lookup_lt_Some. }
  assert (Hlen3 : (length h1 < length h3)%nat).
  { unfold h3. rewrite length_insert, length_app. simpl. lia. }
  clearbody h3.
  apply ok_bind, ok_sget. intros meta0 Hv3 _.
  apply ok_bind.
  apply (ok_mono prot _ _
           (λ _ h4, tree_apart prot (VRef t) h4 ∧ h4 !! t = Some o1
                    ∧ h4 !! m = Some (sobject_set om key d))).
  { destruct (truthy meta0).
    - by apply ok_ret.
    - apply ok_salloc. intros _. split; [| split].
      + by apply tree_apart_alloc.
      + by apply lookup_app_l_Some.
      + by apply lookup_app_l_Some. }
  intros meta h4 (Hapart4 & Ht4 & Hm4).
  apply ok_bind, ok_sget. intros ms' Hv4 (o & Ho & ->).
  rewrite Ht4 in Ho. injection Ho as <-. rewrite Hm.
  apply ok_bind, ok_sget. intros d' _ (o & Ho & ->).
  rewrite Hm4 in Ho. injection Ho as <-.
  rewrite sobject_get_set, String.eqb_refl.
  apply ok_bind, ok_sget. intros e _ _.
  apply ok_bind. eapply ok_mono; [apply ok_meta_type |].
  intros ty h5 ->. apply ok_sset.
  - intros l [= <-]. apply valid_fresh.
    intros l Hl. specialize (Hv1 l Hl). lia.
  - intros l o _ [= <-] Hl. apply tree_apart_insert; [done | done |].
    intros _. by left.
Qed.

(** One turn of the second loop, for a recursive call that leaves alone
    whatever exists when it starts, apart from its tree. *)
Lemma swalk_object_ok (rec : list value → M value) obj tree key h :
  (∀ args h' (prot' : nat → Prop),
      length args = 3 →
      tree_apart prot' (arg 2 args) h' →
      ok prot' (rec args) h' (λ _ _, True)) →
  tree_apart prot tree h →
  ok prot (swalk_object rec obj tree key) h
     (λ _ h', tree_apart prot tree h').
Proof.
  intros Hrec Hapart. unfold swalk_object.
  apply ok_bind, ok_sget. intros v _ _.
  destruct (starts_upper key) eqn:Hupper; simpl; [| by apply ok_ret].
  apply ok_bind, ok_sget. intros os0 _ Hos0.
  apply ok_bind.
  eapply ok_mono; [by apply (ok_ensure_map prot tree "objects"); auto |].
  intros [] h1 (Hapart1 & t & o1 & -> & Ht1).
  destruct (Hapart1 t o1 eq_refl Ht1) as (Hprot_t & _ & Hos).
  pose proof (lookup_lt_Some _ _ _ Ht1) as Ht_lt.
  apply ok_bind, ok_sget. intros os Hv1 (o & Ho & ->).
  rewrite Ht1 in Ho. injection Ho as <-.
  apply ok_bind, ok_salloc. intros _.
  set (node := VRef (length h1)).
  match goal with |- ok _ _ (h1 ++ [?o]) _ => set (lit := o) end.
  assert (Hlit : sobject_get lit "methods" = VUndef
                 ∧ sobject_get lit "objects" = VUndef) by done.
  destruct Hlit as [Hlit_m Hlit_o]. clearbody lit.
  apply ok_bind, ok_sset; [intros l Hl; by destruct (Hos l Hl) |].
  intros m om Hv2 Hm Hom. destruct (Hos m Hm) as [Hprot_m Hne].
  match goal with |- ok _ _ ?h _ => set (h3 := h) end.
  assert (Hkey : key ≠ "methods" ∧ key ≠ "objects").
  { split; intros ->; discriminate Hupper. }
  assert (Hapart3 : tree_apart prot (VRef t) h3).
  { apply tree_apart_insert; [done | | by intros [= ->]].
    by apply tree_apart_alloc. }
  assert (Ht3 : h3 !! t = Some o1).
  { unfold h3. rewrite list_lookup_insert_ne by done.
    by apply lookup_app_l_Some. }
  assert (Hm3 : h3 !! m = Some (sobject_set om key node)).
  { unfold h3. apply list_lookup_insert_eq. by eapply lookup_lt_Some. }
  assert (Hnode3 : ∃ on, h3 !! length h1 = Some on
                         ∧ sobject_get on "methods" = VUndef
                         ∧ sobject_get on "objects" = VUndef).
  { unfold h3. destruct (decide (m = length h1)) as [-> | Hmn].
    - rewrite list_lookup_middle in Hom by done. injection Hom as <-.
      eexists. split; [apply list_lookup_insert_eq; rewrite length_app;
                       simpl; lia |].
      rewrite !sobject_get_set.
      destruct Hkey as [Hk1 Hk2].
      destruct (String.eqb_spec "methods" key); [done |].
      by destruct (String.eqb_spec "objects" key).
    - exists lit. rewrite list_lookup_insert_ne by done.
      split; [by apply list_lookup_middle | by split]. }
  clearbody h3.
  apply ok_bind, ok_sget. intros os' Hv3 (o & Ho & ->).
  rewrite Ht3 in Ho. injection Ho as <-. rewrite Hm.
  apply ok_bind, ok_sget. intros node' _ (o & Ho & ->).
  rewrite Hm3 in Ho. injection Ho as <-.
  rewrite sobject_get_set, String.eqb_refl.
  apply ok_bind.
  destruct Hnode3 as (on & Hon & Hon_m & Hon_o).
  (* the recursive call leaves every older object alone *)
  intros Hv3'.
  assert (Hinner : ok (λ l, (l < length h1)%nat) (rec [v; VStr key; node]) h3
                      (λ _ _, True)).
  { apply Hrec; [done |]. intros t' o' [= <-] Ho'.
    rewrite Hon in Ho'. injection Ho' as <-.
    split; [lia |]. rewrite Hon_m, Hon_o. by split. }
  assert (Hv_inner : valid (λ l, (l < length h1)%nat) h3).
  { intros l Hl. pose proof (lookup_lt_Some _ _ _ Hon). lia. }
  specialize (Hinner Hv_inner).
  destruct (rec [v; VStr key; node] h3) as [r h4 | e h4 |]; [| | done].
  - destruct Hinner as [[Hlen Hsame] _].
    assert (Hpres : preserves prot h3 h4).
    { split; [done |]. intros l Hl. apply Hsame. by apply Hv1. }
    split; [done |]. apply ok_ret. intros _.
    intros t' o' [= <-] Ho'. rewrite Hsame in Ho' by done.
    by eapply Hapart3.
  - destruct Hinner as [Hlen Hsame].
    split; [done |]. intros l Hl. apply Hsame. by apply Hv1.
Qed.
End WalkLoops.

Lemma tree_apart_fresh (prot : nat → Prop) h o :
  valid prot h →
  sobject_get o "methods" = VUndef →
  sobject_get o "objects" = VUndef →
  tree_apart prot (VRef (length h)) (h ++ [o]).
Proof.
  intros Hv Hm Ho t o' [= <-] Hl.
  rewrite list_lookup_middle in Hl by done. injection Hl as <-.
  split; [by apply valid_fresh |]. rewrite Hm, Ho. by split.
Qed.

Lemma swalk_ok fuel :
  ∀ args h (prot : nat → Prop),
    (length args = 3 → tree_apart prot (arg 2 args) h) →
    ok prot (swalk fuel args) h (λ _ _, True).
Proof.
  induction fuel as [| fuel IH]; intros args h prot Htree; [by intros _ |].
  cbn [swalk]. apply ok_bind.
  apply (ok_mono prot _ _ (λ nt h1, tree_apart prot (snd nt) h1)).
  { destruct args as [| a0 [| a1 [| a2 [| a3 rest]]]]; simpl length; cbv iota.
    - apply ok_throw.
    - apply ok_bind, ok_sget. intros name _ _.
      apply ok_bind, ok_salloc. intros Hv. apply ok_ret. intros _.
      by apply tree_apart_fresh.
    - apply ok_bind, ok_salloc. intros Hv. apply ok_ret. intros _.
      by apply tree_apart_fresh.
    - apply ok_ret. intros _. by apply Htree.
    - apply ok_throw. }
  intros [name tree] h1 Hapart. simpl in Hapart. simpl snd.
  apply ok_bind, ok_sget. intros proto _ _.
  apply ok_bind, ok_skeys. intros ks _.
  apply ok_bind.
  eapply ok_mono;
    [apply (ok_for_each prot (tree_apart prot tree));
       [intros key h' Hh'; by apply swalk_method_ok | done] |].
  intros [] h2 Hapart2.
  apply ok_bind, ok_skeys. intros ks' _.
  apply ok_bind.
  eapply ok_mono;
    [apply (ok_for_each prot (tree_apart prot tree));
       [intros key h' Hh'; apply swalk_object_ok; [| done] | done] |].
  - intros args' h'' prot' Hlen Hargs. apply IH. by intros _.
  - intros [] h3 _. by apply ok_ret.
Qed.

(** C9. [walk] writes to the tree it builds and to nothing else: every
    object that exists when it is called, the accumulator of a call with
    three arguments and its two maps apart, is the same when it returns
    or throws.  The definition, its prototype, its nested definitions
    and its [meta] map are among them. *)
Theorem build_leaves_definition_alone fuel args h (prot : nat → Prop) :
  valid prot h →
  (length args = 3 → tree_apart prot (arg 2 args) h) →
  match swalk fuel args h with
  | Val _ h' | Exc _ h' => preserves prot h h'
  | Diverge => True
  end.
Proof.
  intros Hv Htree. pose proof (swalk_ok fuel args h prot Htree Hv) as Hok.
  destruct (swalk fuel args h) as [a h' | e h' |]; [| done | done].
  by destruct Hok.
Qed.

(** [walk(Outer)] on the sample store returns its tree, and the six
    objects of the definitions are as they were. *)
Lemma build_leaves_definition_alone_witness :
  ∃ h', swalk 3 [VRef 0] sample_store = Val (VRef 6) h'
        ∧ preserves (λ l, (l < 6)%nat) sample_store h'.
Proof.
  exists (match swalk 3 [VRef 0] sample_store with
          | Val _ h' | Exc _ h' => h'
          | Diverge => []
          end).
  split; [vm_compute; reflexivity |].
  apply (build_leaves_definition_alone 3 [VRef 0] sample_store
           (λ l, (l < 6)%nat)).
  - intros l Hl. exact Hl.
  - intros Hlen. discriminate Hlen.
Defined.

(** The two transcriptions of [walk] agree on the sample: the tree that
    [swalk] builds in the store is the tree that [walk] returns for the
    definition that the store holds. *)
Example swalk_agrees_with_walk :
  ∃ h', swalk 3 [VRef 0] sample_store = Val (VRef 6) h'
        ∧ walk (Args1 (definition_of 3 sample_store (VRef 0)))
          = Ok (tree_of 3 h' (VRef 6)).
Proof.
  exists (match swalk 3 [VRef 0] sample_store with
          | Val _ h' | Exc _ h' => h'
          | Diverge => []
          end).
  split; vm_compute; reflexivity.
Qed.

(** * More on [walk] *)

Section WalkEntries.
Implicit Types (t : tree) (k key : string).

Lemma walk_methods_assoc_other meta prototype t k :
  ¬ (k ∈ keys prototype ∧ starts_lower k = true) →
  assoc k (default [] (t_methods (fold_left (walk_method meta) prototype t)))
  = assoc k (default [] (t_methods t)).
Proof.
  revert t. induction prototype as [| [key v] rest IH]; intros t Hk; simpl;
    [done |].
  change (keys ((key, v) :: rest)) with (key :: keys rest) in Hk.
  rewrite IH by (intros [Hin Hlow]; apply Hk; split; [set_solver | done]).
  destruct (starts_lower key) eqn:Hlow; [| done]. simpl.
  apply assoc_assoc_set_ne. intros ->. apply Hk. split; [set_solver | done].
Qed.

Lemma walk_methods_assoc meta prototype t key v :
  NoDup (keys prototype) →
  (key, v) ∈ prototype →
  starts_lower key = true →
  assoc key (default [] (t_methods (fold_left (walk_method meta) prototype t)))
  = Some (Method key v (method_type meta key)).
Proof.
  revert t. induction prototype as [| [key0 v0] rest IH]; intros t Hnd Hin Hlow;
    [by apply elem_of_nil in Hin |].
  change (keys ((key0, v0) :: rest)) with (key0 :: keys rest) in Hnd.
  apply NoDup_cons in Hnd as [Hfresh Hnd].
  apply elem_of_cons in Hin as [[= <- <-] | Hin]; simpl.
  - rewrite walk_methods_assoc_other by (by intros [? _]).
    rewrite Hlow. simpl. apply assoc_assoc_set_eq.
  - by apply IH.
Qed.

Lemma walk_nested_assoc_other rec statics t t' k :
  walk_nested rec statics t = Ok t' →
  ¬ (k ∈ keys statics ∧ starts_upper k = true) →
  assoc k (default [] (t_objects t')) = assoc k (default [] (t_objects t)).
Proof.
  revert t. induction statics as [| [key v] rest IH]; intros t; simpl.
  - by intros [= ->].
  - change (keys ((key, v) :: rest)) with (key :: keys rest).
    intros Hw Hk.
    assert (Hrest : ¬ (k ∈ keys rest ∧ starts_upper k = true))
      by (intros [Hin Hup]; apply Hk; split; [set_solver | done]).
    destruct (starts_upper key) eqn:Hup; [| by apply IH].
    destruct (rec v (VStr key) (fresh_node key v)) as [child | e]; [| done].
    rewrite (IH _ Hw Hrest). simpl.
    apply assoc_assoc_set_ne. intros ->. apply Hk. split; [set_solver | done].
Qed.

Lemma walk_nested_assoc rec statics t t' key v :
  walk_nested rec statics t = Ok t' →
  NoDup (keys statics) →
  (key, v) ∈ statics →
  starts_upper key = true →
  ∃ child, rec v (VStr key) (fresh_node key v) = Ok child
           ∧ assoc key (default [] (t_objects t')) = Some child.
Proof.
  revert t. induction statics as [| [key0 v0] rest IH]; intros t Hw Hnd Hin Hup;
    [by apply elem_of_nil in Hin |].
  change (keys ((key0, v0) :: rest)) with (key0 :: keys rest) in Hnd.
  apply NoDup_cons in Hnd as [Hfresh Hnd]. simpl in Hw.
  apply elem_of_cons in Hin as [[= <- <-] | Hin].
  - rewrite Hup in Hw.
    destruct (rec v (VStr key) (fresh_node key v)) as [child | e]; [| done].
    exists child. split; [done |].
    rewrite (walk_nested_assoc_other _ _ _ _ key Hw) by (by intros [? _]).
    simpl. apply assoc_assoc_set_eq.
  - destruct (starts_upper key0); [| by eapply IH].
    destruct (rec v0 (VStr key0) (fresh_node key0 v0)) as [child0 | e];
      [| done].
    by eapply IH.
Qed.

End WalkEntries.

(** X1. The descriptor that [walk] records for a lowercase-leading key
    of the prototype is [{ name: key, value: prototype[key], type }],
    where [type] is [meta[key].type] when [meta] has a truthy one and
    ['callback'] otherwise. *)
Theorem build_descriptors name prototype meta statics (given : option value)
    key v :
  let obj := Def name prototype meta statics in
  well_formed obj = true →
  NoDup (keys prototype) →
  (key, v) ∈ prototype →
  starts_lower key = true →
  ∃ t ms,
    walk (match given with None => Args1 obj | Some n => Args2 obj n end)
      = Ok t
    ∧ t_methods t = Some ms
    ∧ assoc key ms = Some (Method key v (method_type meta key)).
Proof.
  intros obj Hwf Hnd Hin Hlow.
  set (nm := match given with None => def_name obj | Some n => n end).
  destruct (walk_body_total obj Hwf nm (fresh_tree nm)) as [t Ht].
  pose proof Ht as Hfields. simpl in Hfields.
  apply walk_nested_fields in Hfields as (_ & _ & Hm).
  pose proof (walk_methods_assoc meta prototype (fresh_tree nm) key v
                Hnd Hin Hlow) as Hassoc.
  rewrite <- Hm in Hassoc.
  destruct (t_methods t) as [ms |] eqn:Hms; [| done].
  exists t, ms. split; [by destruct given | done].
Qed.

Lemma build_descriptors_witness :
  ∃ t ms, walk (Args1 Outer) = Ok t
          ∧ t_methods t = Some ms
          ∧ assoc "list" ms
            = Some (Method "list" (VFun (FExtern 0)) (VStr "callback")).
Proof.
  apply (build_descriptors (VStr "Outer")
           [("list", VFun (FExtern 0)); ("_opts", VNum 0)] None
           [("Inner", Inner); ("version", Plain (VStr "1.0"))] None
           "list" (VFun (FExtern 0))).
  - reflexivity.
  - repeat constructor; set_solver.
  - set_solver.
  - reflexivity.
Defined.

(** X2. The tree mirrors the definition: for an uppercase-leading
    property [key] with value [v], [objects[key]] is the node
    [{ name: key, value: v }] as the recursive call of [walk] on [v]
    has populated it. *)
Theorem build_nested_nodes name prototype meta statics (given : option value)
    key v :
  let obj := Def name prototype meta statics in
  well_formed obj = true →
  NoDup (keys statics) →
  (key, v) ∈ statics →
  starts_upper key = true →
  ∃ t objs child,
    walk (match given with None => Args1 obj | Some n => Args2 obj n end)
      = Ok t
    ∧ t_objects t = Some objs
    ∧ assoc key objs = Some child
    ∧ walk (Args3 v (VStr key) (fresh_node key v)) = Ok child
    ∧ t_name child = VStr key
    ∧ t_value child = Some v.
Proof.
  intros obj Hwf Hnd Hin Hup.
  set (nm := match given with None => def_name obj | Some n => n end).
  destruct (walk_body_total obj Hwf nm (fresh_tree nm)) as [t Ht].
  pose proof Ht as Hnested. simpl in Hnested.
  destruct (walk_nested_assoc _ _ _ _ key v Hnested Hnd Hin Hup)
    as (child & Hchild & Hassoc).
  destruct (t_objects t) as [objs |] eqn:Hobjs; [| done].
  exists t, objs, child.
  split; [by destruct given |]. do 3 (split; [done |]).
  destruct v as [vn vp vm vs | pv]; [| done]. simpl in Hchild.
  destruct (walk_nested_fields _ _ _ _ Hchild) as (Hn & Hv & _).
  destruct (walk_methods_fields vm vp (fresh_node key (Def vn vp vm vs)))
    as (Hn' & Hv' & _).
  rewrite Hn, Hv. by split.
Qed.

Lemma build_nested_nodes_witness :
  ∃ t objs child,
    walk (Args1 Outer) = Ok t
    ∧ t_objects t = Some objs
    ∧ assoc "Inner" objs = Some child
    ∧ walk (Args3 Inner (VStr "Inner") (fresh_node "Inner" Inner)) = Ok child
    ∧ t_name child = VStr "Inner"
    ∧ t_value child = Some Inner.
Proof.
  apply (build_nested_nodes (VStr "Outer")
           [("list", VFun (FExtern 0)); ("_opts", VNum 0)] None
           [("Inner", Inner); ("version", Plain (VStr "1.0"))] None
           "Inner" Inner).
  - reflexivity.
  - repeat constructor; set_solver.
  - set_solver.
  - reflexivity.
Defined.

(** X3. At an accepted arity [walk] throws exactly when the definition
    is not well formed, and then a [TypeError]: an uppercase-leading
    property that is no definition, at any depth, makes it fail. *)
Theorem build_fails_iff_ill_formed obj name t :
  (walk (Args1 obj) = Raise type_error ↔ well_formed obj = false)
  ∧ (walk (Args2 obj name) = Raise type_error ↔ well_formed obj = false)
  ∧ (walk (Args3 obj name t) = Raise type_error ↔ well_formed obj = false).
Proof.
  assert (Hbody : ∀ n t0, walk_body obj n t0 = Raise type_error
                          ↔ well_formed obj = false).
  { intros n t0. split.
    - intros Hraise. destruct (well_formed obj) eqn:Hwf; [| done].
      destruct (walk_body_total obj Hwf n t0) as [t' Ht']. congruence.
    - intros Hwf. by apply walk_body_ill_formed. }
  repeat split; apply Hbody.
Qed.

(** X4. With three arguments [walk] populates the given tree: its name
    and value stay, the entries it has stay unless the definition names
    them again, and the keys of the definition are added. *)
Theorem build_accumulates name0 prototype meta statics name t t' :
  walk (Args3 (Def name0 prototype meta statics) name t) = Ok t' →
  t_name t' = t_name t
  ∧ t_value t' = t_value t
  ∧ (∀ k, k ∈ method_keys t'
          ↔ k ∈ method_keys t ∨ (k ∈ keys prototype ∧ starts_lower k = true))
  ∧ (∀ k, k ∈ object_keys t'
          ↔ k ∈ object_keys t ∨ (k ∈ keys statics ∧ starts_upper k = true))
  ∧ (∀ k, ¬ (k ∈ keys prototype ∧ starts_lower k = true) →
          assoc k (default [] (t_methods t'))
          = assoc k (default [] (t_methods t)))
  ∧ (∀ k, ¬ (k ∈ keys statics ∧ starts_upper k = true) →
          assoc k (default [] (t_objects t'))
          = assoc k (default [] (t_objects t))).
Proof.
  simpl. intros Hw.
  destruct (walk_nested_fields _ _ _ _ Hw) as (Hn & Hv & Hm).
  destruct (walk_methods_fields meta prototype t) as (Hn' & Hv' & Ho').
  split; [congruence |]. split; [congruence |].
  split; [| split; [| split]].
  - intros k. unfold method_keys at 1. rewrite Hm. apply walk_methods_keys.
  - intros k. rewrite (walk_nested_keys _ _ _ _ k Hw).
    unfold object_keys. by rewrite Ho'.
  - intros k Hk. rewrite Hm. by apply walk_methods_assoc_other.
  - intros k Hk. rewrite (walk_nested_assoc_other _ _ _ _ k Hw Hk).
    by rewrite Ho'.
Qed.

Lemma build_accumulates_witness :
  ∃ t', walk (Args3 Outer VNull seeded_tree) = Ok t'
        ∧ t_name t' = VStr "seed"
        ∧ assoc "ping" (default [] (t_methods t'))
          = Some (Method "ping" VNull (VStr "sync"))
        ∧ ("list" ∈ method_keys t').
Proof.
  exists (match walk (Args3 Outer VNull seeded_tree) with
          | Ok t' => t'
          | Raise _ => seeded_tree
          end).
  destruct (build_accumulates (VStr "Outer")
              [("list", VFun (FExtern 0)); ("_opts", VNum 0)] None
              [("Inner", Inner); ("version", Plain (VStr "1.0"))] VNull
              seeded_tree
              (match walk (Args3 Outer VNull seeded_tree) with
               | Ok t' => t'
               | Raise _ => seeded_tree
               end) eq_refl)
    as (Hname & _ & Hkeys & _ & Hkept & _).
  split; [reflexivity |]. split; [exact Hname |]. split.
  - rewrite Hkept; [reflexivity |]. intros [Hin _].
    apply elem_of_cons in Hin as [Heq | Hin]; [discriminate Heq |].
    apply list_elem_of_singleton in Hin. discriminate Hin.
  - apply Hkeys. right. split; [| reflexivity].
    apply elem_of_cons. by left.
Defined.

Lemma walk_methods_rename meta prototype n t :
  fold_left (walk_method meta) prototype (rename n t)
  = rename n (fold_left (walk_method meta) prototype t).
Proof.
  revert t. induction prototype as [| [key v] rest IH]; intros t; simpl;
    [done |].
  destruct (starts_lower key); [| apply IH].
  by rewrite <- IH.
Qed.

Lemma walk_nested_rename rec statics n t :
  walk_nested rec statics (rename n t)
  = match walk_nested rec statics t with
    | Ok t' => Ok (rename n t')
    | Raise e => Raise e
    end.
Proof.
  revert t. induction statics as [| [key v] rest IH]; intros t; simpl;
    [done |].
  destruct (starts_upper key); [| apply IH].
  destruct (rec v (VStr key) (fresh_node key v)) as [child | e]; [| done].
  by rewrite <- IH.
Qed.

(** X5. The name given to [walk] only labels the root: two calls on the
    same definition fail alike or return trees that differ by the name
    of the root alone, and the call with one argument is the call with
    the name of the definition. *)
Theorem build_name_labels_root obj n1 n2 :
  walk (Args2 obj n1)
  = match walk (Args2 obj n2) with
    | Ok t => Ok (rename n1 t)
    | Raise e => Raise e
    end
  ∧ walk (Args1 obj) = walk (Args2 obj (def_name obj)).
Proof.
  split; [| done].
  destruct obj as [name prototype meta statics | v]; simpl; [| done].
  change (fresh_tree n1) with (rename n1 (fresh_tree n2)).
  by rewrite walk_methods_rename, walk_nested_rename.
Qed.

(** * More on [promisify] *)

(** X6. When the constructor of the client is not well formed (an
    uppercase-leading property that is no definition, such as a
    constant), [promisify] throws the [TypeError] of [walk] and patches
    nothing. *)
Theorem promisify_ill_formed client wrapCallback s :
  truthy client = true →
  well_formed (constructor_of s client) = false →
  promisify client wrapCallback s = (Throw type_error, s).
Proof.
  intros Htruthy Hwf. unfold promisify. rewrite Htruthy. simpl negb.
  cbv iota. unfold walk. by rewrite walk_body_ill_formed.
Qed.

Lemma promisify_ill_formed_witness :
  promisify (VRef 0) VUndef sample_versioned
  = (Throw type_error, sample_versioned).
Proof.
  apply (promisify_ill_formed (VRef 0) VUndef sample_versioned);
    reflexivity.
Defined.

Lemma untouched_refl names s : untouched names s s.
Proof. by repeat split. Qed.

Lemma untouched_trans names s1 s2 s3 :
  untouched names s1 s2 → untouched names s2 s3 → untouched names s1 s3.
Proof.
  intros (Ha & Hp & Hl & H12) (Ha' & Hp' & Hl' & H23).
  split; [congruence |]. split; [congruence |]. split; [congruence |].
  intros l. destruct (H12 l) as [Hproto Hget], (H23 l) as [Hproto' Hget'].
  split; [congruence |]. intros key Hkey.
  by rewrite Hget', Hget.
Qed.

Lemma untouched_set_prop names s l key x s1 :
  key ∈ names → set_prop s (VRef l) key x = Ok s1 → untouched names s s1.
Proof.
  intros Hin Hset. pose proof Hset as [= <-]. repeat split; simpl.
  - rewrite (heap_get_set_prop _ _ _ _ _ l0 Hset).
    case_decide; [subst l0 |]; done.
  - intros key' Hkey'. rewrite (heap_get_set_prop _ _ _ _ _ l0 Hset).
    case_decide; [| done]. subst l0. rewrite object_get_set.
    destruct (String.eqb_spec key' key) as [-> | Hne]; [done | done].
Qed.

Lemma callback_names_elem tn tv ms objs k :
  k ∈ callback_names (Tree tn tv ms objs)
  ↔ (∃ key m, (key, m) ∈ default [] ms
              ∧ is_callback (m_type m) = true ∧ m_name m = k)
    ∨ (∃ key sub, (key, sub) ∈ default [] objs ∧ k ∈ callback_names sub).
Proof.
  cbn [callback_names]. rewrite elem_of_app.
  match goal with |- ?A ∨ ?B ↔ ?A' ∨ ?B' =>
    assert (HA : A ↔ A'); [| assert (HB : B ↔ B'); [| tauto]]
  end.
  - rewrite list_elem_of_In, in_map_iff. split.
    + intros ([key m] & <- & Hin). apply list_elem_of_In in Hin.
      apply list_elem_of_filter in Hin as [Hcb Hin]. eauto.
    + intros (key & m & Hin & Hcb & <-). exists (key, m). split; [done |].
      apply list_elem_of_In, list_elem_of_filter. by split.
  - destruct objs as [entries |]; simpl.
    + rewrite list_elem_of_In, in_flat_map. split.
      * intros ([key sub] & Hin & Hk). exists key, sub.
        split; by apply list_elem_of_In.
      * intros (key & sub & Hin & Hk). exists (key, sub).
        split; by apply list_elem_of_In.
    + split; [by intros ?%elem_of_nil |].
      by intros (key & sub & ?%elem_of_nil & _).
Qed.

Lemma accessor_names_elem tn tv ms objs k :
  k ∈ accessor_names (Tree tn tv ms objs)
  ↔ ∃ key sub, (key, sub) ∈ default [] objs
               ∧ (k = toLowerCase key ∨ k ∈ accessor_names sub).
Proof.
  cbn [accessor_names]. destruct objs as [entries |]; simpl.
  - rewrite list_elem_of_In, in_flat_map. split.
    + intros ([key sub] & Hin & Hk). exists key, sub.
      split; [by apply list_elem_of_In |].
      destruct Hk as [<- | Hk]; [by left | right; by apply list_elem_of_In].
    + intros (key & sub & Hin & Hk). exists (key, sub).
      split; [by apply list_elem_of_In |].
      destruct Hk as [-> | Hk]; [by left | right; by apply list_elem_of_In].
  - split; [by intros ?%elem_of_nil |].
    by intros (key & sub & ?%elem_of_nil & _).
Qed.

Section Untouched.
Variable wc : value.
Variable names : list string.

Lemma patch_methods_untouched c ms s o s' :
  (∀ key m, (key, m) ∈ ms → is_callback (m_type m) = true →
            m_name m ∈ names) →
  patch_methods wc c ms s = (o, s') → untouched names s s'.
Proof.
  revert s. induction ms as [| [key m] rest IH]; intros s Hnames; simpl.
  - intros [= _ <-]. apply untouched_refl.
  - assert (Hrest : ∀ key' m', (key', m') ∈ rest →
                      is_callback (m_type m') = true → m_name m' ∈ names)
      by (intros key' m' Hin; apply (Hnames key' m');
          by (apply elem_of_cons; right)).
    destruct (get_prop s c (m_name m)) as [fn |].
    2: { intros [= _ <-]. apply untouched_refl. }
    destruct (is_callback (m_type m)) eqn:Hcb; [| by apply IH].
    destruct (set_prop s c (m_name m) _) as [s1 |] eqn:Hset.
    2: { intros [= _ <-]. apply untouched_refl. }
    intros Hpatch. eapply untouched_trans; [| by eapply IH].
    destruct (set_prop_ref _ _ _ _ _ Hset) as [l ->].
    eapply untouched_set_prop; [| exact Hset].
    apply (Hnames key m); [by (apply elem_of_cons; left) | done].
Qed.

Lemma patch_untouched t :
  ∀ c s o s',
    (∀ k, k ∈ callback_names t → k ∈ names) →
    patch wc t c s = (o, s') → untouched names s s'.
Proof.
  induction t as [tn tv ms objs IH] using tree_induction.
  intros c s o s' Hnames. simpl.
  destruct ms as [ms |]; [| intros [= _ <-]; apply untouched_refl].
  assert (Hms : ∀ s o s', patch_methods wc c ms s = (o, s') →
                          untouched names s s').
  { intros s0 o0 s0'. apply patch_methods_untouched.
    intros key m Hin Hcb. apply Hnames, callback_names_elem.
    left. by exists key, m. }
  destruct (patch_methods wc c ms s) as [[v | e] s1] eqn:Hpm.
  2: { intros [= _ <-]. by eapply Hms. }
  apply Hms in Hpm.
  destruct objs as [entries |]; simpl in IH.
  2: { by intros [= _ <-]. }
  intros Hobjs. eapply untouched_trans; [exact Hpm |]. clear Hpm Hms.
  assert (Hsub : ∀ key sub, (key, sub) ∈ entries →
                   ∀ k, k ∈ callback_names sub → k ∈ names).
  { intros key sub Hin k Hk. apply Hnames, callback_names_elem.
    right. by exists key, sub. }
  clear Hnames. revert s1 Hobjs.
  induction IH as [| [key sub] rest Hrec _ IHrest]; intros s1; simpl.
  - intros [= _ <-]. apply untouched_refl.
  - assert (Hhere : ∀ k, k ∈ callback_names sub → k ∈ names)
      by (apply (Hsub key sub); by (apply elem_of_cons; left)).
    assert (Hrest : ∀ key' sub', (key', sub') ∈ rest →
                      ∀ k, k ∈ callback_names sub' → k ∈ names)
      by (intros key' sub' Hin; apply (Hsub key' sub');
          by (apply elem_of_cons; right)).
    destruct (get_prop s1 c (toLowerCase key)) as [c' |].
    2: { intros [= _ <-]. apply untouched_refl. }
    destruct (patch wc sub c' s1) as [[v' | e] s2] eqn:Hp.
    + intros Hobjs. eapply untouched_trans; [by eapply Hrec |].
      by apply IHrest.
    + intros [= _ <-]. by eapply Hrec.
Qed.
End Untouched.

(** X7. [promisify] assigns the callback-mode methods of the tree and
    nothing else: on every live object a property that is not named by
    a callback-mode descriptor of the tree (a method of another mode
    among them) keeps its value, the prototype chains are as they were,
    no promise or array is made and no host function is called. *)
Theorem promisify_frame client wrapCallback s t o s' :
  walk (Args1 (constructor_of s client)) = Ok t →
  promisify client wrapCallback s = (o, s') →
  untouched (callback_names t) s s'.
Proof.
  intros Hwalk. unfold promisify.
  destruct (truthy client); simpl negb; cbv iota.
  - rewrite Hwalk. by apply patch_untouched.
  - intros [= _ <-]. apply untouched_refl.
Qed.

Lemma promisify_frame_witness :
  untouched ["list"; "get"] sample_state sample_patched.
Proof.
  apply (promisify_frame (VRef 0) VUndef sample_state outer_tree
           (fst (promisify (VRef 0) VUndef sample_state)));
    reflexivity.
Defined.

Section Completes.
Variable wc : value.
Variable names : list string.
Variable s0 : state.

Lemma patch_completes t :
  ∀ c s,
    (∀ k, k ∈ callback_names t → k ∈ names) →
    (∀ k, k ∈ accessor_names t → k ∉ names) →
    conforms s0 t c = true →
    (∀ l key, key ∉ names →
              object_get (heap_get s l) key = object_get (heap_get s0 l) key) →
    ∃ s', patch wc t c s = (Return VUndef, s').
Proof.
  induction t as [tn tv ms objs IH] using tree_induction.
  intros c s Hcb Hacc Hconf Hagree. cbn [conforms] in Hconf.
  apply andb_true_iff in Hconf as [Hconf Hobjs].
  apply andb_true_iff in Hconf as [Href Hms].
  destruct c as [| | | | | l | | |]; try discriminate Href. clear Href.
  destruct ms as [ms |]; [clear Hms | discriminate Hms].
  cbn [patch].
  destruct (patch_methods wc (VRef l) ms s) as [o1 s1] eqn:Hpm.
  destruct (patch_methods_wraps _ _ _ _ _ _ Hpm) as [-> _].
  assert (Hagree1 : ∀ l' key, key ∉ names →
            object_get (heap_get s1 l') key
            = object_get (heap_get s0 l') key).
  { apply (patch_methods_untouched wc names) in Hpm as (_ & _ & _ & Hu).
    - intros l' key Hkey. destruct (Hu l') as [_ Hget].
      rewrite Hget by done. by apply Hagree.
    - intros key m Hin Hm. apply Hcb, callback_names_elem. left.
      by exists key, m. }
  clear Hpm Hagree s.
  destruct objs as [entries |]; [| eauto]. simpl in IH.
  assert (Hsub_cb : ∀ key sub, (key, sub) ∈ entries →
                      ∀ k, k ∈ callback_names sub → k ∈ names).
  { intros key sub Hin k Hk. apply Hcb, callback_names_elem. right.
    by exists key, sub. }
  assert (Hsub_acc : ∀ key sub, (key, sub) ∈ entries →
                       (toLowerCase key ∉ names)
                       ∧ ∀ k, k ∈ accessor_names sub → k ∉ names).
  { intros key sub Hin. split; [| intros k Hk];
      apply Hacc, accessor_names_elem; exists key, sub; auto. }
  clear Hcb Hacc. revert s1 Hagree1.
  induction IH as [| [key sub] rest Hrec _ IHrest]; intros s1 Hagree1; simpl;
    [eauto |].
  simpl in Hobjs, Hrec. apply andb_true_iff in Hobjs as [Hhere Hrest].
  destruct (Hsub_acc key sub) as [Hkey Hacc_sub]; [by (apply elem_of_cons; left) |].
  rewrite (Hagree1 l _ Hkey).
  destruct (Hrec (object_get (heap_get s0 l) (toLowerCase key)) s1)
    as [s2 Hs2]; [| done | done | done |].
  { apply (Hsub_cb key sub). by (apply elem_of_cons; left). }
  rewrite Hs2. apply IHrest; [done | | |].
  - intros key' sub' Hin. apply (Hsub_cb key' sub'). by (apply elem_of_cons; right).
  - intros key' sub' Hin. apply (Hsub_acc key' sub'). by (apply elem_of_cons; right).
  - apply (patch_untouched wc names) in Hs2 as (_ & _ & _ & Hu).
    + intros l' key' Hkey'. destruct (Hu l') as [_ Hget].
      rewrite Hget by done. by apply Hagree1.
    + apply (Hsub_cb key sub). by (apply elem_of_cons; left).
Qed.
End Completes.

(** X8. [promisify] completes when the live objects mirror the tree:
    every node has a [methods] map and meets a live object down the
    lower-cased accessors, and no accessor is also the name of a
    callback-mode method (which [patch] would overwrite on its way). *)
Theorem promisify_completes client wrapCallback s t :
  truthy client = true →
  walk (Args1 (constructor_of s client)) = Ok t →
  conforms s t client = true →
  (∀ k, k ∈ accessor_names t → k ∉ callback_names t) →
  ∃ s', promisify client wrapCallback s = (Return VUndef, s').
Proof.
  intros Htruthy Hwalk Hconf Hacc. unfold promisify.
  rewrite Htruthy. simpl negb. cbv iota. rewrite Hwalk.
  by apply (patch_completes _ (callback_names t) s).
Qed.

Lemma promisify_completes_witness :
  ∃ s', promisify (VRef 0) VUndef sample_state = (Return VUndef, s').
Proof.
  apply (promisify_completes (VRef 0) VUndef sample_state outer_tree);
    try reflexivity.
  intros k Hin Hk.
  apply list_elem_of_singleton in Hin. subst k.
  apply elem_of_cons in Hk as [Hk | Hk]; [discriminate Hk |].
  apply list_elem_of_singleton in Hk. discriminate Hk.
Defined.

Lemma wrapped_size wc c orig d v :
  wrapped wc c orig d v → (value_size orig + d ≤ value_size v)%nat.
Proof.
  induction 1 as [| d v _ IH]; simpl; lia.
Qed.

(** X9. [promisify] is not idempotent: each run puts every
    callback-mode method of every live object it visits under a new
    wrapper, whatever the property held before (a wrapper of an earlier
    run included). *)
Theorem promisify_wraps_again client wrapCallback s t o s'
    node l sn ms key m :
  truthy client = true →
  walk (Args1 (constructor_of s client)) = Ok t →
  promisify client wrapCallback s = (o, s') →
  reaches (adapter_of wrapCallback) t client s node (VRef l) sn →
  t_methods node = Some ms →
  (key, m) ∈ ms →
  is_callback (m_type m) = true →
  (value_size (object_get (heap_get s l) (m_name m))
   < value_size (object_get (heap_get s' l) (m_name m)))%nat
  ∧ object_get (heap_get s' l) (m_name m)
    ≠ object_get (heap_get s l) (m_name m).
Proof.
  intros Htruthy Hwalk Hprom Hreach Hms Hin Hcb.
  destruct (promisify_installs _ _ _ _ _ _ _ _ _ _ _ _
              Htruthy Hwalk Hprom Hreach Hms Hin Hcb) as [d Hd].
  apply wrapped_size in Hd.
  split; [lia |]. intros Heq. rewrite Heq in Hd. lia.
Qed.

(** A second run on the patched sample wraps the wrapper of the first. *)
Lemma promisify_wraps_again_witness :
  object_get (heap_get (snd (promisify (VRef 0) VUndef sample_patched)) 0)
             "list"
  ≠ object_get (heap_get sample_patched 0) "list".
Proof.
  apply (promisify_wraps_again (VRef 0) VUndef sample_patched outer_tree
           (fst (promisify (VRef 0) VUndef sample_patched))
           (snd (promisify (VRef 0) VUndef sample_patched))
           outer_tree 0 sample_patched
           [("list", Method "list" (VFun (FExtern 0)) (VStr "callback"))]
           "list" (Method "list" (VFun (FExtern 0)) (VStr "callback"))).
  - reflexivity.
  - reflexivity.
  - reflexivity.
  - apply reaches_here.
  - reflexivity.
  - apply list_elem_of_singleton. reflexivity.
  - reflexivity.
Defined.

Lemma evals_extern extern id this args s r :
  evals extern (VFun (FExtern id)) this args s r
  ↔ ∃ n, run_body (call extern n) (extern id this args)
                  (log_call id this args s) = Some r.
Proof.
  split; intros [n Hn].
  - destruct n as [| n]; [done |]. by exists n.
  - by exists (S n).
Qed.

(** X10. A patched operation is bound to its live object: whatever
    receiver [this] the wrapper is called with, the code of the original
    host function runs with the live object it was installed on as its
    receiver (and is logged so), on the callback path and, with
    [fromCallback] as adapter, on the promise path. *)
Theorem patched_operation_is_bound extern client wrapCallback s t o s'
    node l sn ms key m id this args s0 r :
  truthy client = true →
  walk (Args1 (constructor_of s client)) = Ok t →
  promisify client wrapCallback s = (o, s') →
  reaches (adapter_of wrapCallback) t client s node (VRef l) sn →
  t_methods node = Some ms →
  (key, m) ∈ ms →
  is_callback (m_type m) = true →
  object_get (heap_get s l) (m_name m) = VFun (FExtern id) →
  let dual := object_get (heap_get s' l) (m_name m) in
  (is_function (last_arg args) = true →
   evals extern dual this args s0 r
   ↔ ∃ n, run_body (call extern n) (extern id (VRef l) args)
                   (log_call id (VRef l) args s0) = Some r)
  ∧ (is_function (last_arg args) = false →
     truthy wrapCallback = false →
     let p := length (promises s0) in
     let args' := args ++ [VFun (FSettle p)] in
     evals extern dual this args s0 r
     ↔ ∃ n o1 s1,
         run_body (call extern n) (extern id (VRef l) args')
                  (log_call id (VRef l) args' (promise_path_entry args s0))
         = Some (o1, s1)
         ∧ r = (Return (VPromise p),
                match o1 with
                | Throw e => settle p (Rejected e) s1
                | Return _ => s1
                end)).
Proof.
  intros Htruthy Hwalk Hprom Hreach Hms Hin Hcb Horiginal dual.
  destruct (promisify_installs _ _ _ _ _ _ _ _ _ _ _ _
              Htruthy Hwalk Hprom Hreach Hms Hin Hcb) as [d Hd].
  rewrite Horiginal in Hd. fold dual in Hd. split.
  - intros Hlast. rewrite <- evals_extern.
    by eapply installed_passthrough.
  - intros Hlast Hdefault p args'.
    unfold adapter_of in Hd. rewrite Hdefault in Hd.
    inversion Hd as [| d' inner Hinner Hd' Hdual]. subst d'.
    assert (Hpass : ∀ r', evals extern inner (VRef l) args'
                                (promise_path_entry args s0) r'
                          ↔ ∃ n, run_body (call extern n)
                                   (extern id (VRef l) args')
                                   (log_call id (VRef l) args'
                                      (promise_path_entry args s0))
                                 = Some r').
    { intros r'. rewrite <- evals_extern.
      apply (wrapped_passthrough extern _ _ _ _ _ Hinner).
      unfold args'. by rewrite last_arg_snoc. }
    split.
    + intros [n Hn].
      destruct n as [| [| [| n]]];
        [done | simpl in Hn; by rewrite Hlast in Hn
         | simpl in Hn; by rewrite Hlast in Hn |].
      rewrite wrapper_promise_path in Hn by done. fold p args' in Hn.
      destruct (call extern n inner (VRef l) args'
                     (promise_path_entry args s0)) as [[o1 s1] |] eqn:Hc;
        [| done].
      destruct (proj1 (Hpass (o1, s1))) as [k Hk]; [by exists n |].
      exists k, o1, s1. split; [done |].
      destruct o1; by injection Hn as <-.
    + intros (n & o1 & s1 & Hrun & ->).
      destruct (proj2 (Hpass (o1, s1))) as [k Hk]; [by exists n |].
      exists (S (S (S k))). rewrite wrapper_promise_path by done.
      fold p args'. rewrite Hk. by destruct o1.
Qed.

(** [self] returns its receiver.  Detached from the patched probe and
    called with [this = undefined], with a callback it returns the
    probe; without one it returns a promise, and the log shows that
    [self] ran on the probe. *)
Lemma patched_operation_is_bound_witness :
  evals probe_host (object_get (heap_get sample_probe_patched 0) "self")
        VUndef [VFun (FExtern 3)] sample_probe_patched
        (Return (VRef 0),
         log_call 7 (VRef 0) [VFun (FExtern 3)] sample_probe_patched)
  ∧ evals probe_host (object_get (heap_get sample_probe_patched 0) "self")
          VUndef [] sample_probe_patched
          (Return (VPromise 0),
           log_call 7 (VRef 0) [VFun (FSettle 0)]
             (promise_path_entry [] sample_probe_patched)).
Proof.
  split.
  - destruct (patched_operation_is_bound probe_host (VRef 0) VUndef
                sample_probe probe_tree
                (fst (promisify (VRef 0) VUndef sample_probe))
                sample_probe_patched probe_tree 0 sample_probe
                [("fetch", Method "fetch" (VFun (FExtern 2)) (VStr "callback"));
                 ("self", Method "self" (VFun (FExtern 7)) (VStr "callback"))]
                "self" (Method "self" (VFun (FExtern 7)) (VStr "callback"))
                7 VUndef [VFun (FExtern 3)] sample_probe_patched (Return (VRef 0),
                 log_call 7 (VRef 0) [VFun (FExtern 3)] sample_probe_patched))
      as [Hcallback _].
    + reflexivity.
    + reflexivity.
    + reflexivity.
    + apply reaches_here.
    + reflexivity.
    + apply elem_of_cons. right. apply list_elem_of_singleton. reflexivity.
    + reflexivity.
    + reflexivity.
    + apply Hcallback; [reflexivity |]. exists 0. reflexivity.
  - destruct (patched_operation_is_bound probe_host (VRef 0) VUndef
                sample_probe probe_tree
                (fst (promisify (VRef 0) VUndef sample_probe))
                sample_probe_patched probe_tree 0 sample_probe
                [("fetch", Method "fetch" (VFun (FExtern 2)) (VStr "callback"));
                 ("self", Method "self" (VFun (FExtern 7)) (VStr "callback"))]
                "self" (Method "self" (VFun (FExtern 7)) (VStr "callback"))
                7 VUndef [] sample_probe_patched (Return (VPromise 0),
                 log_call 7 (VRef 0) [VFun (FSettle 0)]
                   (promise_path_entry [] sample_probe_patched)))
      as [_ Hpromise].
    + reflexivity.
    + reflexivity.
    + reflexivity.
    + apply reaches_here.
    + reflexivity.
    + apply elem_of_cons. right. apply list_elem_of_singleton. reflexivity.
    + reflexivity.
    + reflexivity.
    + apply Hpromise; [reflexivity | reflexivity |].
      exists 0, (Return (VRef 0)),
        (log_call 7 (VRef 0) [VFun (FSettle 0)]
           (promise_path_entry [] sample_probe_patched)).
      split; reflexivity.
Defined.

(** X15. A node without [methods] map stops the traversal wherever it
    is: when [promisify] comes to a nested capability whose definition
    has no lowercase-leading operation (one that only groups further
    capabilities), it throws a [TypeError] there, with the live object
    present and what was wrapped so far left wrapped. *)
Theorem nested_node_without_operation client wrapCallback s t node c sn :
  truthy client = true →
  walk (Args1 (constructor_of s client)) = Ok t →
  reaches (adapter_of wrapCallback) t client s node c sn →
  t_methods node = None →
  promisify client wrapCallback s = (Throw type_error, sn).
Proof.
  intros Htruthy Hwalk Hreach Hnone. unfold promisify.
  rewrite Htruthy. simpl negb. cbv iota. rewrite Hwalk.
  fold (adapter_of wrapCallback).
  eapply reaches_throw; [exact Hreach |].
  destruct node as [tn tv tm objs]. simpl in Hnone. by subst tm.
Qed.

Lemma nested_node_without_operation_witness :
  ∃ sn,
    object_get (heap_get sn 0) "list"
    = VFun (FWrapper (VRef 0) (VFun (FExtern 0)) (VFun FFromCallback))
    ∧ object_get (heap_get sn 2) "get" = VFun (FExtern 1)
    ∧ promisify (VRef 0) VUndef sample_api = (Throw type_error, sn).
Proof.
  exists (snd (patch_methods (VFun FFromCallback) (VRef 0)
                 [("list", Method "list" (VFun (FExtern 0)) (VStr "callback"))]
                 sample_api)).
  split; [reflexivity |]. split; [reflexivity |].
  apply (nested_node_without_operation (VRef 0) VUndef sample_api
           api_tree admin_node (VRef 1));
    [reflexivity | reflexivity | | reflexivity].
  eapply (reaches_nested _ (VStr "Api") None _ [] "Admin" admin_node []);
    [reflexivity | reflexivity | reflexivity | apply reaches_here].
Defined.

(** * More on the wrapper and on [fromCallback] *)

(** X11. On the promise path nothing is thrown to the caller: with
    [fromCallback] as adapter, a call without trailing callback that
    completes returns the new promise, and when the original operation
    throws before it has called back, the promise is rejected with what
    it threw. *)
Theorem promise_path_never_throws extern client wrapCallback s t o s'
    node l sn ms key m this args s0 :
  truthy client = true →
  walk (Args1 (constructor_of s client)) = Ok t →
  promisify client wrapCallback s = (o, s') →
  reaches (adapter_of wrapCallback) t client s node (VRef l) sn →
  t_methods node = Some ms →
  (key, m) ∈ ms →
  is_callback (m_type m) = true →
  truthy wrapCallback = false →
  is_function (last_arg args) = false →
  let original := object_get (heap_get s l) (m_name m) in
  let dual := object_get (heap_get s' l) (m_name m) in
  let p := length (promises s0) in
  let cb := VFun (FSettle p) in
  (∀ r s2, evals extern dual this args s0 (r, s2) → r = Return (VPromise p))
  ∧ (∀ e s1,
        evals extern original (VRef l) (args ++ [cb])
              (promise_path_entry args s0) (Throw e, s1) →
        promise_state s1 p = Some Pending →
        evals extern dual this args s0
              (Return (VPromise p), settle p (Rejected e) s1)
        ∧ promise_state (settle p (Rejected e) s1) p = Some (Rejected e)).
Proof.
  intros Htruthy Hwalk Hprom Hreach Hms Hin Hcb Hdefault Hlast
         original dual p cb.
  destruct (promisify_installs _ _ _ _ _ _ _ _ _ _ _ _
              Htruthy Hwalk Hprom Hreach Hms Hin Hcb) as [d Hd].
  unfold adapter_of in Hd. rewrite Hdefault in Hd.
  fold original dual in Hd.
  inversion Hd as [| d' inner Hinner Hd' Hdual]. subst d'.
  split.
  - intros r s2 [n Hn].
    destruct n as [| [| [| n]]].
    + done.
    + simpl in Hn. by rewrite Hlast in Hn.
    + simpl in Hn. by rewrite Hlast in Hn.
    + rewrite wrapper_promise_path in Hn by done.
      destruct (call extern n inner (VRef l) _ _) as [[[v | e] s3] |];
        [| | done]; by injection Hn as <- _.
  - intros e s1 Hthrow Hpending.
    apply (wrapped_passthrough extern _ _ _ _ _ Hinner) in Hthrow;
      [| by rewrite last_arg_snoc].
    destruct Hthrow as [n Hn]. split; [| by apply settle_pending].
    exists (S (S (S n))). rewrite wrapper_promise_path by done.
    fold p cb. by rewrite Hn.
Qed.

(** [inner.get()] on the patched sample: [get] throws [boom], its
    wrapper returns a promise rejected with [boom]. *)
Lemma promise_path_never_throws_witness :
  ∃ s2,
    evals host (object_get (heap_get sample_patched 1) "get") VUndef []
          sample_patched (Return (VPromise 0), s2)
    ∧ promise_state s2 0 = Some (Rejected boom).
Proof.
  destruct (promise_path_never_throws host (VRef 0) VUndef sample_state
              outer_tree (fst (promisify (VRef 0) VUndef sample_state))
              sample_patched inner_node 1 sample_midway
              [("get", Method "get" (VFun (FExtern 1)) (VStr "callback"))]
              "get" (Method "get" (VFun (FExtern 1)) (VStr "callback"))
              VUndef [] sample_patched)
    as [_ Hthrow].
  - reflexivity.
  - reflexivity.
  - reflexivity.
  - apply sample_reaches_inner.
  - reflexivity.
  - apply list_elem_of_singleton. reflexivity.
  - reflexivity.
  - reflexivity.
  - reflexivity.
  - eexists. apply (Hthrow boom); [exists 1; reflexivity | reflexivity].
Defined.

(** X12. [fromCallback(op)] for an operation that passes [(err, data)]
    to its callback: the promise is rejected with a truthy [err] and
    resolved with [data] otherwise, also when the operation goes on to
    call back again or to throw. *)
Theorem adapter_settles extern id this n s cbargs o s1 :
  let p := length (promises s) in
  let cb := VFun (FSettle p) in
  calls_back cb cbargs (extern id VUndef [cb]) →
  call extern n (VFun (FExtern id)) VUndef [cb] (snd (new_promise s))
    = Some (o, s1) →
  ∃ s2,
    call extern (S n) (VFun FFromCallback) this [VFun (FExtern id)] s
      = Some (Return (VPromise p), s2)
    ∧ promise_state s2 p = Some (settlement cbargs).
Proof.
  intros p cb Hcalls Hop.
  assert (Hs1 : promise_state s1 p = Some (settlement cbargs)).
  { destruct n as [| n]; [done |]. simpl in Hop.
    eapply calls_back_settles; [exact Hcalls | | exact Hop].
    unfold promise_state; simpl. by apply list_lookup_middle. }
  exists s1. split; [| done].
  cbn [call new_promise]. unfold arg; simpl. fold p cb.
  change (State (heap s) (arrays s) (promises s ++ [Pending]) (log s))
    with (snd (new_promise s)).
  rewrite Hop. destruct o as [v | e]; [done |].
  rewrite (settle_settled _ _ _ _ Hs1); [done |].
  apply settlement_not_pending.
Qed.

(** [fromCallback] on the sample operation that calls back with
    [(null, 42)]. *)
Lemma adapter_settles_witness :
  ∃ s2,
    call host 3 (VFun FFromCallback) VUndef [VFun (FExtern 0)] sample_state
      = Some (Return (VPromise 0), s2)
    ∧ promise_state s2 0 = Some (Resolved (VNum 42)).
Proof.
  apply (adapter_settles host 0 VUndef 2 sample_state [VNull; VNum 42]
           (Return VUndef)
           (settle 0 (Resolved (VNum 42))
              (log_call 0 VUndef [VFun (FSettle 0)]
                 (snd (new_promise sample_state))))).
  - apply calls_back_now.
  - reflexivity.
Defined.

(** X13. [fromCallback] called with something that is no function (or
    with nothing) does not throw: the [TypeError] of the call is caught
    and the promise it returns is rejected with it. *)
Theorem adapter_rejects_non_function extern this args n s :
  is_function (arg 0 args) = false →
  let p := length (promises s) in
  call extern (S (S n)) (VFun FFromCallback) this args s
    = Some (Return (VPromise p),
            settle p (Rejected type_error) (snd (new_promise s)))
  ∧ promise_state (settle p (Rejected type_error) (snd (new_promise s))) p
    = Some (Rejected type_error).
Proof.
  intros Hop p. split.
  - cbn [call new_promise].
    destruct (arg 0 args) as [| | | | | | | | f]; try done.
  - apply settle_pending. unfold promise_state; simpl.
    by apply list_lookup_middle.
Qed.

Lemma adapter_rejects_non_function_witness :
  call host 2 (VFun FFromCallback) VUndef [] sample_state
  = Some (Return (VPromise 0),
          settle 0 (Rejected type_error) (snd (new_promise sample_state))).
Proof.
  apply (adapter_rejects_non_function host VUndef [] 0 sample_state).
  reflexivity.
Defined.

(** X14. What an adapter is given.  Without trailing callback the
    patched operation returns what [wrapCallback] returns when called
    with one function; that function, called with a callback, pushes it
    on the copy of the arguments and runs the original operation on the
    result.  The array is shared: a second call runs the original with
    both callbacks. *)
Theorem adapter_protocol extern client wrapCallback s t o s'
    node l sn ms key m this args s0 :
  truthy client = true →
  walk (Args1 (constructor_of s client)) = Ok t →
  promisify client wrapCallback s = (o, s') →
  reaches (adapter_of wrapCallback) t client s node (VRef l) sn →
  t_methods node = Some ms →
  (key, m) ∈ ms →
  is_callback (m_type m) = true →
  is_function (last_arg args) = false →
  let original := object_get (heap_get s l) (m_name m) in
  let dual := object_get (heap_get s' l) (m_name m) in
  let a := length (arrays s0) in
  ∃ inner,
    let append := VFun (FAppend (VRef l) inner a) in
    (∀ n, call extern (S n) dual this args s0
          = call extern n (adapter_of wrapCallback) VUndef [append]
                 (snd (new_array args s0)))
    ∧ array_read a (snd (new_array args s0)) = args
    ∧ ∀ callback rest this' xs s3 r,
        is_function callback = true →
        arrays s3 !! a = Some xs →
        array_read a (array_push a callback s3) = xs ++ [callback]
        ∧ (evals extern append this' (callback :: rest) s3 r
           ↔ evals extern original (VRef l) (xs ++ [callback])
                   (array_push a callback s3) r).
Proof.
  intros Htruthy Hwalk Hprom Hreach Hms Hin Hcb Hlast original dual a.
  destruct (promisify_installs _ _ _ _ _ _ _ _ _ _ _ _
              Htruthy Hwalk Hprom Hreach Hms Hin Hcb) as [d Hd].
  fold original dual in Hd.
  inversion Hd as [| d' inner Hinner Hd' Hdual]. subst d'.
  exists inner. split; [| split].
  - intros n. cbn [call]. by rewrite Hlast.
  - unfold array_read; simpl. by rewrite list_lookup_middle.
  - intros callback rest this' xs s3 r Hfun Hxs.
    assert (Hread : array_read a (array_push a callback s3)
                    = xs ++ [callback]).
    { unfold array_read, array_push; simpl.
      by rewrite list_lookup_alter_eq, Hxs. }
    split; [done |].
    rewrite <- (wrapped_passthrough extern _ _ _ _ _ Hinner)
      by (by rewrite last_arg_snoc).
    split; intros [n Hn].
    + destruct n as [| n]; [done |]. cbn [call] in Hn.
      change (arg 0 (callback :: rest)) with callback in Hn.
      rewrite Hread in Hn. by exists n.
    + exists (S n). cbn [call].
      change (arg 0 (callback :: rest)) with callback.
      by rewrite Hread.
Qed.

Lemma adapter_protocol_witness :
  ∃ inner,
    ∀ n, call retry_host (S n)
              (object_get (heap_get sample_custom 0) "list") VUndef []
              sample_custom
         = call retry_host n (VFun (FExtern 4)) VUndef
                [VFun (FAppend (VRef 0) inner 0)]
                (snd (new_array [] sample_custom)).
Proof.
  destruct (adapter_protocol retry_host (VRef 0) (VFun (FExtern 4))
              sample_state outer_tree
              (fst (promisify (VRef 0) (VFun (FExtern 4)) sample_state))
              sample_custom outer_tree 0 sample_state
              [("list", Method "list" (VFun (FExtern 0)) (VStr "callback"))]
              "list" (Method "list" (VFun (FExtern 0)) (VStr "callback"))
              VUndef [] sample_custom)
    as (inner & Hcall & _).
  - reflexivity.
  - reflexivity.
  - reflexivity.
  - apply reaches_here.
  - reflexivity.
  - apply list_elem_of_singleton. reflexivity.
  - reflexivity.
  - reflexivity.
  - exists inner. exact Hcall.
Defined.

(** The adapter that calls twice: [list] runs with the callback 5, then
    with the callbacks 5 and 6, and the wrapper returns what the adapter
    returns. *)
Example retrying_adapter_shares_the_array :
  ∃ s2,
    call retry_host 5 (object_get (heap_get sample_custom 0) "list") VUndef
         [] sample_custom
    = Some (Return (VNum 7), s2)
    ∧ filter (λ e, fst (fst e) = 0) (log s2)
      = [(0, VRef 0, [VFun (FExtern 5)]);
         (0, VRef 0, [VFun (FExtern 5); VFun (FExtern 6)])].
Proof.
  exists (match call retry_host 5
                  (object_get (heap_get sample_custom 0) "list") VUndef []
                  sample_custom with
          | Some (_, s2) => s2
          | None => sample_custom
          end).
  split; vm_compute; reflexivity.
Qed.
